(** * byte-enum: a shallow embedding of [src/byteEnum.ts]

    The three constructors [createByteEnum], [createCharEnum] and
    [createAlphaNumEnum] and the seven utilities closed over the object
    they build are translated function by function.  The JavaScript
    built-ins the source relies on (string case mapping, [split], [join],
    ordinary objects with their property enumeration order) are modelled in
    [Module JS]; the reverse [Map] is a [gmap].

    A JavaScript string is a sequence of code units.  The model has the 256
    code units 0..255, which is the range of the default code-set of
    [createCharEnum], and the three code units that case mapping reaches from
    them: U+0178 (the uppercase of U+00FF), U+039C (the uppercase of U+00B5)
    and U+03BC (the lowercase of U+039C).  This set is closed under
    [toUpperCase] and [toLowerCase], and on it the two functions are the
    Unicode mappings that [String.prototype.toUpperCase] and
    [String.prototype.toLowerCase] apply.  Error messages are plain
    [String.string]s. *)

From Stdlib Require Import String Ascii List ZArith NArith Lia.
From Stdlib Require Import DecimalString Sorted.
From stdpp Require Import gmap strings list.

Open Scope string_scope.
Open Scope list_scope.

(* ===================================================================== *)
(** * JavaScript strings                                                  *)
(* ===================================================================== *)

Inductive code_unit : Type :=
| U8 (a : ascii)
| U0178
| U039C
| U03BC.

Inductive jsstring : Type :=
| JSEmpty
| JSCons (u : code_unit) (s : jsstring).

(** String literals denote the string of the code units of their bytes. *)
Definition jsstring_of_bytes (l : list Byte.byte) : jsstring :=
  fold_right (fun b s => JSCons (U8 (ascii_of_byte b)) s) JSEmpty l.

Fixpoint bytes_of_jsstring (s : jsstring) : option (list Byte.byte) :=
  match s with
  | JSEmpty => Some []
  | JSCons (U8 a) r =>
      match bytes_of_jsstring r with
      | Some l => Some (byte_of_ascii a :: l)
      | None => None
      end
  | JSCons _ _ => None
  end.

Declare Scope js_scope.
Delimit Scope js_scope with js.
Bind Scope js_scope with jsstring.
String Notation jsstring jsstring_of_bytes bytes_of_jsstring : js_scope.
Open Scope js_scope.

Definition code_of_unit (u : code_unit) : N :=
  match u with
  | U8 a => N_of_ascii a
  | U0178 => 376
  | U039C => 924
  | U03BC => 956
  end.

Definition unit_of_code (n : N) : code_unit :=
  if (n =? 376)%N then U0178
  else if (n =? 924)%N then U039C
  else if (n =? 956)%N then U03BC
  else U8 (ascii_of_N n).

Fixpoint units (s : jsstring) : list code_unit :=
  match s with
  | JSEmpty => []
  | JSCons u r => u :: units r
  end.

Definition of_units (l : list code_unit) : jsstring :=
  fold_right JSCons JSEmpty l.

#[global] Instance code_unit_eq_dec : EqDecision code_unit.
Proof.
  intros u v.
  destruct (N.eq_dec (code_of_unit u) (code_of_unit v)) as [Heq|Hne].
  - left.
    abstract (assert (Hrt : forall w, unit_of_code (code_of_unit w) = w)
                by (intros [a| | |]; try reflexivity;
                    unfold code_of_unit, unit_of_code;
                    pose proof (N_ascii_bounded a) as Hb;
                    destruct (N.eqb_spec (N_of_ascii a) 376); [lia|];
                    destruct (N.eqb_spec (N_of_ascii a) 924); [lia|];
                    destruct (N.eqb_spec (N_of_ascii a) 956); [lia|];
                    now rewrite ascii_N_embedding);
              rewrite <- (Hrt u), <- (Hrt v), Heq; reflexivity).
  - right. abstract congruence.
Defined.

#[global] Instance code_unit_countable : Countable code_unit.
Proof.
  refine (inj_countable' code_of_unit unit_of_code _).
  abstract (intros [a| | |]; try reflexivity;
            unfold code_of_unit, unit_of_code;
            pose proof (N_ascii_bounded a) as Hb;
            destruct (N.eqb_spec (N_of_ascii a) 376); [lia|];
            destruct (N.eqb_spec (N_of_ascii a) 924); [lia|];
            destruct (N.eqb_spec (N_of_ascii a) 956); [lia|];
            now rewrite ascii_N_embedding).
Defined.

#[global] Instance jsstring_eq_dec : EqDecision jsstring.
Proof.
  intros s. induction s as [|u s IH]; intros [|v t].
  - left. abstract reflexivity.
  - right. abstract discriminate.
  - right. abstract discriminate.
  - destruct (decide (u = v)) as [Hu|Hu].
    + destruct (IH t) as [Hs|Hs].
      * left. abstract (now rewrite Hu, Hs).
      * right. abstract (intros [= _ Heq]; contradiction).
    + right. abstract (intros [= Heq _]; contradiction).
Defined.

#[global] Instance jsstring_countable : Countable jsstring.
Proof.
  refine (inj_countable' units of_units _).
  abstract (intros s; induction s as [|u r IH]; simpl;
            [reflexivity|now rewrite IH]).
Defined.

(* ===================================================================== *)
(** * JavaScript built-ins used by the source                             *)
(* ===================================================================== *)

Module JS.

(** ** Strings *)

Definition unit_eqb (u v : code_unit) : bool := bool_decide (u = v).

Fixpoint eqb (s t : jsstring) : bool :=
  match s, t with
  | JSEmpty, JSEmpty => true
  | JSCons u s', JSCons v t' => unit_eqb u v && eqb s' t'
  | _, _ => false
  end.

Fixpoint length (s : jsstring) : nat :=
  match s with
  | JSEmpty => 0
  | JSCons _ r => S (length r)
  end.

Fixpoint append (s t : jsstring) : jsstring :=
  match s with
  | JSEmpty => t
  | JSCons u r => JSCons u (append r t)
  end.

(** The code unit at position [i], when there is one. *)
Fixpoint unit_at (i : nat) (s : jsstring) : option code_unit :=
  match s with
  | JSEmpty => None
  | JSCons u r => match i with O => Some u | S i' => unit_at i' r end
  end.

(** The string of a message text. *)
Fixpoint of_string (s : string) : jsstring :=
  match s with
  | EmptyString => JSEmpty
  | String a r => JSCons (U8 a) (of_string r)
  end.

(** The text of a string without code units above 255. *)
Fixpoint to_string (s : jsstring) : option string :=
  match s with
  | JSEmpty => Some EmptyString
  | JSCons (U8 a) r =>
      match to_string r with
      | Some t => Some (String a t)
      | None => None
      end
  | JSCons _ _ => None
  end.

Definition in_range (lo hi : nat) (a : ascii) : bool :=
  let n := nat_of_ascii a in (lo <=? n)%nat && (n <=? hi)%nat.

(** One of the letters a-z. *)
Definition is_lower (u : code_unit) : bool :=
  match u with
  | U8 a => in_range 97 122 a
  | _ => false
  end.

(** The uppercase mapping of one code unit: a-z and U+00E0..U+00FE (but
    not the division sign U+00F7) move down by 32, U+00DF becomes "SS",
    U+00FF becomes U+0178, U+00B5 and U+03BC become U+039C; every other code
    unit of the model is its own uppercase. *)
Definition upper_unit (u : code_unit) : jsstring :=
  match u with
  | U8 a =>
      let n := nat_of_ascii a in
      if in_range 97 122 a
         || (in_range 224 254 a && negb (n =? 247)%nat)
      then JSCons (U8 (ascii_of_nat (n - 32))) JSEmpty
      else if (n =? 223)%nat then "SS"
      else if (n =? 255)%nat then JSCons U0178 JSEmpty
      else if (n =? 181)%nat then JSCons U039C JSEmpty
      else JSCons (U8 a) JSEmpty
  | U0178 => JSCons U0178 JSEmpty
  | U039C => JSCons U039C JSEmpty
  | U03BC => JSCons U039C JSEmpty
  end.

(** The lowercase mapping of one code unit: A-Z and U+00C0..U+00DE (but not
    the multiplication sign U+00D7) move up by 32, U+0178 becomes U+00FF,
    U+039C becomes U+03BC; every other code unit of the model is its own
    lowercase. *)
Definition lower_unit (u : code_unit) : code_unit :=
  match u with
  | U8 a =>
      let n := nat_of_ascii a in
      if in_range 65 90 a
         || (in_range 192 222 a && negb (n =? 215)%nat)
      then U8 (ascii_of_nat (n + 32))
      else U8 a
  | U0178 => U8 (ascii_of_nat 255)
  | U039C => U03BC
  | U03BC => U03BC
  end.

(** [s.toUpperCase()] and [s.toLowerCase()]. *)
Fixpoint toUpperCase (s : jsstring) : jsstring :=
  match s with
  | JSEmpty => JSEmpty
  | JSCons u r => append (upper_unit u) (toUpperCase r)
  end.

Fixpoint toLowerCase (s : jsstring) : jsstring :=
  match s with
  | JSEmpty => JSEmpty
  | JSCons u r => JSCons (lower_unit u) (toLowerCase r)
  end.

(** [s.charAt(0)]: the first code unit as a string, or the empty string. *)
Definition charAt0 (s : jsstring) : jsstring :=
  match s with
  | JSEmpty => JSEmpty
  | JSCons u _ => JSCons u JSEmpty
  end.

(** [s.slice(1)]: everything after the first code unit. *)
Definition slice1 (s : jsstring) : jsstring :=
  match s with
  | JSEmpty => JSEmpty
  | JSCons _ r => r
  end.

(** [s.split(sep)] for a separator of one code unit; the empty string splits
    into one empty segment. *)
Fixpoint split (sep : code_unit) (s : jsstring) : list jsstring :=
  match s with
  | JSEmpty => [JSEmpty]
  | JSCons u r =>
      if unit_eqb u sep then JSEmpty :: split sep r
      else match split sep r with
           | [] => [JSCons u JSEmpty]
           | w :: ws => JSCons u w :: ws
           end
  end.

(** [ws.join(sep)]. *)
Fixpoint join (sep : jsstring) (ws : list jsstring) : jsstring :=
  match ws with
  | [] => JSEmpty
  | [w] => w
  | w :: ws' => append w (append sep (join sep ws'))
  end.

(** [s[i]] for [i < s.length]: a string of one code unit.  Out of range
    JavaScript yields [undefined]; both call sites are guarded, and the
    model gives the empty string there. *)
Definition index (s : jsstring) (i : nat) : jsstring :=
  match unit_at i s with
  | Some u => JSCons u JSEmpty
  | None => JSEmpty
  end.

(** [String.fromCharCode(i)] for [0 <= i < 256]. *)
Definition fromCharCode (i : nat) : jsstring :=
  JSCons (U8 (ascii_of_nat i)) JSEmpty.

(** Number to text, as a template literal does for a non-negative
    integer. *)
Definition string_of_nat (n : nat) : string :=
  NilZero.string_of_uint (Nat.to_uint n).

(** ** Ordinary objects

    An object is the list of its own string-keyed data properties in order
    of creation.  Assigning to an existing property keeps its place. *)

Definition object (V : Type) : Type := list (jsstring * V).

Section Object.
Context {V : Type}.

Fixpoint get (k : jsstring) (o : object V) : option V :=
  match o with
  | [] => None
  | (k', v) :: r => if eqb k k' then Some v else get k r
  end.

(** [o.hasOwnProperty(k)]. *)
Definition hasOwnProperty (k : jsstring) (o : object V) : bool :=
  match get k o with Some _ => true | None => false end.

Fixpoint put (k : jsstring) (v : V) (o : object V) : object V :=
  match o with
  | [] => [(k, v)]
  | (k', v') :: r =>
      if eqb k k' then (k', v) :: r else (k', v') :: put k v r
  end.

(** [o[k] = v] on an object whose prototype is [Object.prototype], for a
    primitive [v]: the inherited [__proto__] setter ignores a primitive,
    so no own property is created for that key. *)
Definition set (k : jsstring) (v : V) (o : object V) : object V :=
  if eqb k "__proto__" then o else put k v o.

(** An array index is a canonical numeric string (the decimal form of an
    integer, no leading zero) below [2^32 - 1]. *)
Definition array_index (k : jsstring) : option N :=
  match to_string k with
  | Some t =>
      match NilZero.uint_of_string t with
      | Some u =>
          let n := N.of_uint u in
          if String.eqb (NilZero.string_of_uint (N.to_uint n)) t
             && (n <? 4294967295)%N
          then Some n else None
      | None => None
      end
  | None => None
  end.

Definition is_array_index (k : jsstring) : bool :=
  match array_index k with Some _ => true | None => false end.

Fixpoint insert_sorted (n : N) (e : jsstring * V)
    (l : list (N * (jsstring * V))) : list (N * (jsstring * V)) :=
  match l with
  | [] => [(n, e)]
  | (m, e') :: r =>
      if (n <=? m)%N then (n, e) :: (m, e') :: r
      else (m, e') :: insert_sorted n e r
  end.

Fixpoint index_entries (o : object V) : list (N * (jsstring * V)) :=
  match o with
  | [] => []
  | (k, v) :: r =>
      match array_index k with
      | Some n => insert_sorted n (k, v) (index_entries r)
      | None => index_entries r
      end
  end.

Definition named_entries (o : object V) : object V :=
  List.filter (fun e => negb (is_array_index (fst e))) o.

(** [Object.entries(o)]: array-index keys in ascending numeric order,
    then the other keys in order of creation. *)
Definition entries (o : object V) : list (jsstring * V) :=
  map snd (index_entries o) ++ named_entries o.
End Object.

End JS.

Infix "+:+" := JS.append (at level 60, right associativity) : js_scope.
(* ===================================================================== *)
(** * Completions: a call either returns or throws                        *)
(* ===================================================================== *)

(** Both [throw new Error(...)] sites report that the name list is larger
    than the code space; the payload is the message of the [Error]. *)
Inductive error : Type :=
| CapacityExceeded (message : string).

Inductive completion (A : Type) : Type :=
| Return (a : A)
| Throw (e : error).
Arguments Return {A} a.
Arguments Throw {A} e.

(** [keys.reduce(callback, init)] with a callback that may throw: the
    callback sees the accumulator, the element and its index, and the first
    throw aborts the whole reduction. *)
Fixpoint reduce {A B : Type} (callback : B -> A -> nat -> completion B)
    (keys : list A) (index : nat) (acc : B) : completion B :=
  match keys with
  | [] => Return acc
  | key :: rest =>
      match callback acc key index with
      | Return acc' => reduce callback rest (S index) acc'
      | Throw e => Throw e
      end
  end.

(* ===================================================================== *)
(** * The enumeration instance and its utilities                          *)
(* ===================================================================== *)

(** What a constructor closes over: [enumObject] (the name-to-code
    properties), the reverse [Map] and the two cached arrays.  [V] is the
    code type: [Z] for [createByteEnum], [jsstring] for [createCharEnum]. *)
Record Instance (V : Type) `{Countable V} : Type := mkInstance {
  enumObject : JS.object V;
  valueToKeyMap : gmap V jsstring;
  keysList : list jsstring;
  valuesList : list V
}.
Arguments mkInstance {V _ _} _ _ _ _.
Arguments enumObject {V _ _} _.
Arguments valueToKeyMap {V _ _} _.
Arguments keysList {V _ _} _.
Arguments valuesList {V _ _} _.

(** The property names [Object.assign(enumObject, utilities)] adds to
    [enumObject] before the instance is returned. *)
Definition utility_names : list jsstring :=
  ["values"; "keys"; "isValue"; "isKey"; "getKeyByValue"; "getDisplayName";
   "getFormattedName"].

(** The display rule of [getDisplayName], as the source computes it:
    lowercase the whole key, split on underscore, capitalise each word, join
    with one space. *)
Definition capitalise (word : jsstring) : jsstring :=
  JS.toUpperCase (JS.charAt0 word) +:+ JS.slice1 word.

Definition title_case (key : jsstring) : jsstring :=
  JS.join " " (map capitalise (JS.split (U8 "_") (JS.toLowerCase key))).

(** The display rule in the words of the specification: split the name on
    underscore, lowercase each segment, uppercase its first character, join
    with single spaces. *)
Definition spec_display_name (name : jsstring) : jsstring :=
  JS.join " "
    (map (fun segment =>
            match JS.toLowerCase segment with
            | JSEmpty => JSEmpty
            | JSCons c r => JS.toUpperCase (JSCons c JSEmpty) +:+ r
            end)
         (JS.split (U8 "_") name)).

Section Utilities.
Context {V : Type} `{Countable V}.

(** One step of the [forEach] over [Object.entries(enumObject)]. *)
Definition populate_step (st : gmap V jsstring * list jsstring * list V)
    (entry : jsstring * V) : gmap V jsstring * list jsstring * list V :=
  let '(m, ks, vs) := st in
  let '(key, value) := entry in
  (<[value := key]> m, ks ++ [key], vs ++ [value]).

Definition populate (es : list (jsstring * V))
  : gmap V jsstring * list jsstring * list V :=
  fold_left populate_step es (∅, [], []).

(** The part of a constructor after the reduction. *)
Definition build (o : JS.object V) : Instance V :=
  let '(m, ks, vs) := populate (JS.entries o) in
  mkInstance o m ks vs.

Definition values (e : Instance V) : list V := valuesList e.

Definition keys (e : Instance V) : list jsstring := keysList e.

Definition isValue (e : Instance V) (value : V) : bool :=
  bool_decide (is_Some (valueToKeyMap e !! value)).

(** [enumObject.hasOwnProperty(key.toUpperCase())], evaluated on the
    returned object, which also owns the utility properties. *)
Definition isKey (e : Instance V) (key : jsstring) : bool :=
  let k := JS.toUpperCase key in
  JS.hasOwnProperty k (enumObject e) || existsb (JS.eqb k) utility_names.

Definition getKeyByValue (e : Instance V) (value : V) : option jsstring :=
  valueToKeyMap e !! value.

(** [if (!key) return '']: an absent key and the empty key are both
    falsy. *)
Definition getDisplayName (e : Instance V) (value : V) : jsstring :=
  match getKeyByValue e value with
  | None => ""
  | Some key => if JS.eqb key "" then "" else title_case key
  end.

Definition getFormattedName (e : Instance V) (value : V)
    (formatter : jsstring -> jsstring) : jsstring :=
  match getKeyByValue e value with
  | None => ""
  | Some key => if JS.eqb key "" then "" else formatter key
  end.

(** [Enum.NAME] for a name property: the forward mapping.  The utility
    properties and the inherited ones are not part of it. *)
Definition forward (e : Instance V) (name : jsstring) : option V :=
  JS.get name (enumObject e).
End Utilities.

(* ===================================================================== *)
(** * The constructors                                                    *)
(* ===================================================================== *)

Definition byte_callback (acc : JS.object Z) (key : jsstring) (index : nat)
  : completion (JS.object Z) :=
  if (255 <? index)%nat then
    Throw (CapacityExceeded "Byte enum cannot have more than 256 values")
  else
    let upperKey := JS.toUpperCase key in
    Return (JS.set upperKey (Z.of_nat index) acc).

Definition createByteEnum (keys : list jsstring) : completion (Instance Z) :=
  match reduce byte_callback keys 0 [] with
  | Throw e => Throw e
  | Return enumObject => Return (build enumObject)
  end.

(** The default code-set: the loop appending [String.fromCharCode(i)] for
    [i] from 0 to 255. *)
Definition default_charSet : jsstring :=
  fold_left (fun charSet i => charSet +:+ JS.fromCharCode i) (seq 0 256) "".

(** [customCharSet?: jsstring] is absent ([None]) or a jsstring; [!charSet] holds
    for an absent argument and for the empty jsstring. *)
Definition falsy (customCharSet : option jsstring) : bool :=
  match customCharSet with
  | None => true
  | Some s => JS.eqb s ""
  end.

Definition effective_charSet (customCharSet : option jsstring) : jsstring :=
  if falsy customCharSet then default_charSet
  else match customCharSet with Some s => s | None => default_charSet end.

Definition char_callback (charSet : jsstring) (acc : JS.object jsstring)
    (key : jsstring) (index : nat) : completion (JS.object jsstring) :=
  if (JS.length charSet <=? index)%nat then
    Throw (CapacityExceeded
             (String.append "Enum has too many values (max: "
                (String.append (JS.string_of_nat (JS.length charSet)) ")")))
  else
    let upperKey := JS.toUpperCase key in
    Return (JS.set upperKey (JS.index charSet index) acc).

Definition createCharEnum (keys : list jsstring) (customCharSet : option jsstring)
  : completion (Instance jsstring) :=
  let charSet := effective_charSet customCharSet in
  match reduce (char_callback charSet) keys 0 [] with
  | Throw e => Throw e
  | Return enumObject => Return (build enumObject)
  end.

Definition createAlphaNumEnum (keys : list jsstring)
  : completion (Instance jsstring) :=
  let charSet :=
    "0123456789abcdefghijklmnopqrstuvwxyzABCDEFGHIJKLMNOPQRSTUVWXYZ" in
  createCharEnum keys (Some charSet).

(** The alphanumeric code-set in the words of the specification: the digits
    0-9, then lowercase a-z, then uppercase A-Z. *)
Definition string_of_codes (l : list nat) : jsstring :=
  fold_right (fun n s => JSCons (U8 (ascii_of_nat n)) s) JSEmpty l.

Definition spec_alphanum_charSet : jsstring :=
  string_of_codes (seq 48 10) +:+ string_of_codes (seq 97 26)
  +:+ string_of_codes (seq 65 26).


(* ===================================================================== *)
(** * Vocabulary of the statements                                        *)
(* ===================================================================== *)

(** Does the jsstring contain one of the letters a-z? *)
Fixpoint has_lower (s : jsstring) : bool :=
  match s with
  | JSEmpty => false
  | JSCons c r => JS.is_lower c || has_lower r
  end.

(** The reduction of either constructor when no callback throws: the
    [index]-th name, uppercased, is assigned [code index]. *)
Fixpoint assign {V : Type} (code : nat -> V) (keys : list jsstring)
    (index : nat) (acc : JS.object V) : JS.object V :=
  match keys with
  | [] => acc
  | key :: rest =>
      assign code rest (S index) (JS.set (JS.toUpperCase key) (code index) acc)
  end.

(** The position (counted from [index]) of the last name of [keys] whose
    uppercase form is [name]. *)
Fixpoint last_pos (name : jsstring) (keys : list jsstring) (index : nat)
  : option nat :=
  match keys with
  | [] => None
  | key :: rest =>
      match last_pos name rest (S index) with
      | Some j => Some j
      | None => if JS.eqb (JS.toUpperCase key) name then Some index else None
      end
  end.

(** The key of the last entry of [es] whose value is [c]. *)
Fixpoint last_key {V : Type} `{EqDecision V} (c : V) (es : list (jsstring * V))
  : option jsstring :=
  match es with
  | [] => None
  | (k, v) :: r =>
      match last_key c r with
      | Some k' => Some k'
      | None => if decide (v = c) then Some k else None
      end
  end.

(** The reverse [Map] after the [forEach], on its own. *)
Definition reverse_index {V : Type} `{Countable V} (es : list (jsstring * V))
    (m : gmap V jsstring) : gmap V jsstring :=
  fold_left (fun m e => <[snd e := fst e]> m) es m.

(** The error values of the two [throw] sites. *)
Definition byte_overflow : error :=
  CapacityExceeded "Byte enum cannot have more than 256 values".

Definition char_overflow (charSet : jsstring) : error :=
  CapacityExceeded
    (String.append "Enum has too many values (max: "
       (String.append (JS.string_of_nat (JS.length charSet)) ")")).

(** Input lists used to exercise the statements. *)
Definition numbered_keys (n : nat) : list jsstring :=
  map (fun i => "KEY_" +:+ JS.of_string (JS.string_of_nat i)) (seq 0 n).

(** Each jsstring of [l] once, at the place of its first occurrence. *)
Fixpoint first_occurrences (l : list jsstring) : list jsstring :=
  match l with
  | [] => []
  | x :: r =>
      x :: List.filter (fun y => negb (JS.eqb y x)) (first_occurrences r)
  end.

(** Numeric order on array-index keys. *)
Definition key_index_le (a b : jsstring) : Prop :=
  match JS.array_index a, JS.array_index b with
  | Some n, Some m => (n <= m)%N
  | _, _ => False
  end.

(** [s] with every [a] replaced by [b]. *)
Fixpoint replace_char (a b : code_unit) (s : jsstring) : jsstring :=
  match s with
  | JSEmpty => JSEmpty
  | JSCons c r => JSCons (if JS.unit_eqb c a then b else c) (replace_char a b r)
  end.


(** A jsstring of one character among 0-9, a-z, A-Z. *)
Definition is_alphanum (c : jsstring) : bool :=
  match c with
  | JSCons (U8 a) JSEmpty =>
      JS.in_range 48 57 a || JS.in_range 97 122 a || JS.in_range 65 90 a
  | _ => false
  end.

(** The code-set literal of [createAlphaNumEnum]. *)
Definition alphanum_charSet : jsstring :=
  "0123456789abcdefghijklmnopqrstuvwxyzABCDEFGHIJKLMNOPQRSTUVWXYZ".

(** The same property with its value passed through [g]. *)
Definition recode {A B : Type} (g : A -> B) (e : jsstring * A) : jsstring * B :=
  (fst e, g (snd e)).

(* ===================================================================== *)
(** * Strings: equality, length, concatenation                            *)
(* ===================================================================== *)

Section StringFacts.

Lemma unit_eqb_spec (u v : code_unit) : reflect (u = v) (JS.unit_eqb u v).
Proof. apply bool_decide_reflect. Qed.


Lemma jsstring_eqb_spec (s t : jsstring) : reflect (s = t) (JS.eqb s t).
Proof.
  revert t. induction s as [|u s IH]; intros [|v t]; simpl;
    try (constructor; congruence).
  destruct (unit_eqb_spec u v) as [->|Hne]; simpl.
  - destruct (IH t) as [->|Hne]; constructor; congruence.
  - constructor. congruence.
Qed.

Lemma jsstring_eqb_refl (s : jsstring) : JS.eqb s s = true.
Proof. now destruct (jsstring_eqb_spec s s). Qed.

Lemma jsstring_eqb_eq (s t : jsstring) : JS.eqb s t = true <-> s = t.
Proof. destruct (jsstring_eqb_spec s t); split; congruence. Qed.

Lemma jsstring_eqb_sym (s t : jsstring) : JS.eqb s t = JS.eqb t s.
Proof.
  destruct (jsstring_eqb_spec s t) as [->|Hne].
  - symmetry. apply jsstring_eqb_refl.
  - destruct (jsstring_eqb_spec t s); congruence.
Qed.


Lemma append_assoc (s t r : jsstring) : (s +:+ t) +:+ r = s +:+ (t +:+ r).
Proof. induction s as [|u s IH]; simpl; [reflexivity|now rewrite IH]. Qed.


End StringFacts.

(* ===================================================================== *)
(** * Case mapping and the display rule                                   *)
(* ===================================================================== *)

Section CaseMapping.

Ltac by_units u :=
  destruct u as [a| | |];
  [destruct a as [[] [] [] [] [] [] [] []]|..]; vm_compute; reflexivity.

Lemma upper_unit_idem (u : code_unit) :
  JS.toUpperCase (JS.upper_unit u) = JS.upper_unit u.
Proof. by_units u. Qed.

Lemma upper_unit_not_lower (u : code_unit) : has_lower (JS.upper_unit u) = false.
Proof. by_units u. Qed.

Lemma lower_unit_underscore (u : code_unit) :
  JS.unit_eqb (JS.lower_unit u) (U8 "_") = JS.unit_eqb u (U8 "_").
Proof. by_units u. Qed.

Lemma toUpperCase_append (s t : jsstring) :
  JS.toUpperCase (s +:+ t) = JS.toUpperCase s +:+ JS.toUpperCase t.
Proof.
  induction s as [|u s IH]; simpl; [reflexivity|].
  now rewrite IH, append_assoc.
Qed.

Lemma toUpperCase_idem (s : jsstring) :
  JS.toUpperCase (JS.toUpperCase s) = JS.toUpperCase s.
Proof.
  induction s as [|u s IH]; simpl; [reflexivity|].
  now rewrite toUpperCase_append, upper_unit_idem, IH.
Qed.

Lemma has_lower_append (s t : jsstring) :
  has_lower (s +:+ t) = has_lower s || has_lower t.
Proof.
  induction s as [|u s IH]; simpl; [reflexivity|].
  now rewrite IH, orb_assoc.
Qed.

Lemma toUpperCase_no_lower (s : jsstring) : has_lower (JS.toUpperCase s) = false.
Proof.
  induction s as [|u s IH]; simpl; [reflexivity|].
  now rewrite has_lower_append, upper_unit_not_lower, IH.
Qed.

Lemma toUpperCase_neq (s t : jsstring) :
  has_lower t = true -> JS.toUpperCase s <> t.
Proof.
  intros Ht Heq. rewrite <- Heq, toUpperCase_no_lower in Ht. discriminate.
Qed.

Lemma toUpperCase_not_proto (s : jsstring) : JS.toUpperCase s <> "__proto__".
Proof. apply toUpperCase_neq. reflexivity. Qed.

Lemma toUpperCase_not_utility (s : jsstring) :
  existsb (JS.eqb (JS.toUpperCase s)) utility_names = false.
Proof.
  apply not_true_iff_false. intros Hex.
  apply existsb_exists in Hex. destruct Hex as (u & Hin & Heq).
  apply jsstring_eqb_eq in Heq.
  revert Heq. apply toUpperCase_neq.
  unfold utility_names in Hin. simpl in Hin.
  repeat (destruct Hin as [<- | Hin]; [reflexivity|]). destruct Hin.
Qed.

Lemma split_toLowerCase (s : jsstring) :
  JS.split (U8 "_") (JS.toLowerCase s)
  = map JS.toLowerCase (JS.split (U8 "_") s).
Proof.
  induction s as [|c r IH]; simpl; [reflexivity|].
  rewrite lower_unit_underscore.
  destruct (JS.unit_eqb c (U8 "_")); simpl; rewrite IH; [reflexivity|].
  destruct (JS.split (U8 "_") r); reflexivity.
Qed.

Lemma capitalise_eq (w : jsstring) :
  capitalise w =
  match w with
  | JSEmpty => JSEmpty
  | JSCons c r => JS.toUpperCase (JSCons c JSEmpty) +:+ r
  end.
Proof. destruct w; reflexivity. Qed.

(** The source lowercases before it splits, the specification after: the
    two display rules are the same function. *)
Lemma title_case_spec (key : jsstring) : title_case key = spec_display_name key.
Proof.
  unfold title_case, spec_display_name.
  rewrite split_toLowerCase, map_map.
  f_equal. apply map_ext. intros w. apply capitalise_eq.
Qed.

End CaseMapping.
(* ===================================================================== *)
(** * Objects: property access, assignment, enumeration                   *)
(* ===================================================================== *)

Section ObjectFacts.
Context {V : Type}.
Implicit Types (o : JS.object V) (k : jsstring) (v : V).

Lemma get_put k k' v o :
  JS.get k (JS.put k' v o) = if JS.eqb k k' then Some v else JS.get k o.
Proof.
  induction o as [|[k0 v0] r IH]; simpl.
  - destruct (JS.eqb k k'); reflexivity.
  - destruct (jsstring_eqb_spec k' k0) as [->|Hne]; simpl.
    + destruct (JS.eqb k k0); reflexivity.
    + rewrite IH.
      destruct (jsstring_eqb_spec k k0) as [->|Hne']; [|reflexivity].
      destruct (jsstring_eqb_spec k0 k') as [->|_]; [congruence|reflexivity].
Qed.

Lemma get_set k k' v o :
  k' <> "__proto__" ->
  JS.get k (JS.set k' v o) = if JS.eqb k k' then Some v else JS.get k o.
Proof.
  intros Hk. unfold JS.set.
  destruct (jsstring_eqb_spec k' "__proto__"); [contradiction|apply get_put].
Qed.

Lemma get_In k v o : JS.get k o = Some v -> In (k, v) o.
Proof.
  induction o as [|[k0 v0] r IH]; simpl; [discriminate|].
  destruct (jsstring_eqb_spec k k0) as [->|_].
  - intros [= ->]. now left.
  - intros Hg. right. now apply IH.
Qed.

Lemma get_None k o : JS.get k o = None <-> ~ In k (map fst o).
Proof.
  induction o as [|[k0 v0] r IH]; simpl; [tauto|].
  destruct (jsstring_eqb_spec k k0) as [->|Hne].
  - split; [discriminate|]. intros Hn. exfalso. apply Hn. now left.
  - rewrite IH. split; [intros Hn [Heq|Hin]; congruence|tauto].
Qed.

Lemma In_get k v o : NoDup (map fst o) -> In (k, v) o -> JS.get k o = Some v.
Proof.
  induction o as [|[k0 v0] r IH]; simpl; [tauto|].
  intros Hnd [Heq|Hin]; inversion Hnd as [|? ? Hnotin Hnd']; subst.
  - injection Heq as -> ->. now rewrite jsstring_eqb_refl.
  - destruct (jsstring_eqb_spec k k0) as [->|_]; [|now apply IH].
    exfalso. apply Hnotin, list_elem_of_In.
    apply (in_map fst) in Hin. exact Hin.
Qed.

Lemma put_keys_In k k' v o :
  In k (map fst (JS.put k' v o)) <-> k = k' \/ In k (map fst o).
Proof.
  induction o as [|[k0 v0] r IH]; simpl; [intuition congruence|].
  destruct (jsstring_eqb_spec k' k0) as [->|Hne]; simpl.
  - intuition congruence.
  - rewrite IH. intuition congruence.
Qed.

Lemma put_NoDup k v o : NoDup (map fst o) -> NoDup (map fst (JS.put k v o)).
Proof.
  induction o as [|[k0 v0] r IH]; simpl; intros Hnd.
  - constructor; [rewrite list_elem_of_In; simpl; tauto|constructor].
  - inversion Hnd as [|? ? Hnotin Hnd']; subst.
    destruct (jsstring_eqb_spec k k0) as [->|Hne]; simpl.
    + now constructor.
    + constructor; [|now apply IH].
      rewrite list_elem_of_In in *. rewrite put_keys_In.
      intros [Heq|Hin]; congruence.
Qed.

Lemma set_NoDup k v o : NoDup (map fst o) -> NoDup (map fst (JS.set k v o)).
Proof.
  unfold JS.set. destruct (JS.eqb k "__proto__"); [tauto|apply put_NoDup].
Qed.

Lemma put_fresh k v o : ~ In k (map fst o) -> JS.put k v o = o ++ [(k, v)].
Proof.
  induction o as [|[k0 v0] r IH]; simpl; [reflexivity|].
  intros Hn. destruct (jsstring_eqb_spec k k0) as [->|_].
  - exfalso. apply Hn. now left.
  - f_equal. apply IH. tauto.
Qed.

Lemma insert_sorted_In (x : jsstring * V) n e l :
  In x (map snd (JS.insert_sorted n e l)) <-> x = e \/ In x (map snd l).
Proof.
  induction l as [|[m e'] r IH]; simpl; [intuition congruence|].
  destruct (n <=? m)%N; simpl; [intuition congruence|].
  rewrite IH. intuition congruence.
Qed.

Lemma index_entries_In (x : jsstring * V) o :
  In x (map snd (JS.index_entries o)) <->
  In x o /\ JS.is_array_index (fst x) = true.
Proof.
  unfold JS.is_array_index.
  induction o as [|[k0 v0] r IH]; simpl; [tauto|].
  destruct (JS.array_index k0) as [n|] eqn:Hk.
  - rewrite insert_sorted_In, IH. split.
    + intros [->|[Hin Ht]]; simpl; [rewrite Hk|]; tauto.
    + intros [[<-|Hin] Ht]; [now left|right; tauto].
  - rewrite IH. split; [tauto|].
    intros [[<-|Hin] Ht]; [simpl in Ht; rewrite Hk in Ht; discriminate|tauto].
Qed.

(** [Object.entries] lists exactly the properties of the object. *)
Lemma entries_In (x : jsstring * V) o : In x (JS.entries o) <-> In x o.
Proof.
  unfold JS.entries, JS.named_entries.
  rewrite in_app_iff, index_entries_In, filter_In.
  destruct (JS.is_array_index (fst x)); simpl; intuition congruence.
Qed.

Lemma index_entries_named o :
  (forall x, In x o -> JS.is_array_index (fst x) = false) ->
  JS.index_entries o = [].
Proof.
  unfold JS.is_array_index.
  induction o as [|[k0 v0] r IH]; simpl; [reflexivity|].
  intros Hall. pose proof (Hall (k0, v0) (or_introl eq_refl)) as Hk. simpl in Hk.
  destruct (JS.array_index k0); [discriminate|].
  apply IH. intros x Hx. apply Hall. now right.
Qed.

(** Without array-index keys the enumeration order is the creation order. *)
Lemma entries_named o :
  (forall x, In x o -> JS.is_array_index (fst x) = false) -> JS.entries o = o.
Proof.
  intros Hall. unfold JS.entries, JS.named_entries.
  rewrite index_entries_named by exact Hall. simpl.
  apply forallb_filter_id. apply forallb_forall.
  intros x Hx. now rewrite (Hall x Hx).
Qed.

End ObjectFacts.

(* ===================================================================== *)
(** * The reduction: which code each name ends up with                    *)
(* ===================================================================== *)

Section Reduction.
Context {V : Type}.
Implicit Types (code : nat -> V) (acc : JS.object V) (keys : list jsstring).

(** A name reads back the code of its last occurrence (last write wins). *)
Lemma assign_get code keys : forall index acc name,
  JS.get name (assign code keys index acc) =
  match last_pos name keys index with
  | Some j => Some (code j)
  | None => JS.get name acc
  end.
Proof.
  induction keys as [|key rest IH]; intros index acc name; simpl; [reflexivity|].
  rewrite IH. destruct (last_pos name rest (S index)); [reflexivity|].
  rewrite get_set by apply toUpperCase_not_proto.
  rewrite (jsstring_eqb_sym name).
  destruct (JS.eqb (JS.toUpperCase key) name); reflexivity.
Qed.

Lemma assign_NoDup code keys : forall index acc,
  NoDup (map fst acc) -> NoDup (map fst (assign code keys index acc)).
Proof.
  induction keys as [|key rest IH]; intros index acc Hnd; simpl; [exact Hnd|].
  apply IH, set_NoDup, Hnd.
Qed.

(** Pairwise distinct new names are appended in input order. *)
Lemma assign_fresh code keys : forall index acc,
  NoDup (map JS.toUpperCase keys) ->
  (forall name, In name keys -> ~ In (JS.toUpperCase name) (map fst acc)) ->
  assign code keys index acc =
  acc ++ combine (map JS.toUpperCase keys) (map code (seq index (length keys))).
Proof.
  induction keys as [|key rest IH]; intros index acc Hnd Hfresh; simpl.
  - now rewrite app_nil_r.
  - inversion Hnd as [|? ? Hnotin Hnd']; subst.
    rewrite list_elem_of_In in Hnotin.
    assert (Hput : JS.set (JS.toUpperCase key) (code index) acc
                   = acc ++ [(JS.toUpperCase key, code index)]).
    { unfold JS.set.
      destruct (jsstring_eqb_spec (JS.toUpperCase key) "__proto__") as [He|_].
      - now apply toUpperCase_not_proto in He.
      - apply put_fresh, Hfresh. now left. }
    rewrite Hput, IH; [now rewrite <- app_assoc|exact Hnd'|].
    intros name Hin. rewrite map_app, in_app_iff. simpl.
    intros [Hacc|[Heq|[]]].
    + revert Hacc. apply Hfresh. now right.
    + apply Hnotin. rewrite Heq. now apply in_map.
Qed.

Lemma last_pos_Some name keys : forall index j,
  last_pos name keys index = Some j ->
  exists key, keys !! (j - index) = Some key /\ index <= j /\
    JS.toUpperCase key = name /\
    forall j' key', j < j' -> keys !! (j' - index) = Some key' ->
      JS.toUpperCase key' <> name.
Proof.
  induction keys as [|key rest IH]; intros index j; simpl; [discriminate|].
  destruct (last_pos name rest (S index)) as [j0|] eqn:Hl.
  - intros [= <-]. destruct (IH _ _ Hl) as (key0 & Hk & Hle & Hup & Hlast).
    exists key0. replace (j0 - index) with (S (j0 - S index)) by lia.
    repeat split; [exact Hk|lia|exact Hup|].
    intros j' key' Hlt Hk'. apply (Hlast j' key' Hlt).
    replace (j' - index) with (S (j' - S index)) in Hk' by lia. exact Hk'.
  - destruct (jsstring_eqb_spec (JS.toUpperCase key) name) as [Heq|_];
      [|discriminate].
    intros [= <-]. exists key. rewrite Nat.sub_diag.
    repeat split; [lia|exact Heq|].
    intros j' key' Hlt Hk'.
    replace (j' - index) with (S (j' - S index)) in Hk' by lia. simpl in Hk'.
    intros Hup. clear IH.
    assert (Hnone : forall keys0 index0 p key0,
      last_pos name keys0 index0 = None -> keys0 !! p = Some key0 ->
      JS.toUpperCase key0 <> name).
    { clear. induction keys0 as [|k0 r0 IH0]; intros index0 p key0; simpl;
        [discriminate|].
      destruct (last_pos name r0 (S index0)) eqn:Hl0; [discriminate|].
      destruct (jsstring_eqb_spec (JS.toUpperCase k0) name) as [|Hne];
        [discriminate|].
      intros _. destruct p as [|p]; simpl.
      - now intros [= <-].
      - now apply (IH0 (S index0)). }
    exact (Hnone _ _ _ _ Hl Hk' Hup).
Qed.

Lemma last_pos_ge keys : forall index p key,
  keys !! p = Some key ->
  exists j, last_pos (JS.toUpperCase key) keys index = Some j /\
    index + p <= j < index + length keys.
Proof.
  induction keys as [|k0 rest IH]; intros index p key; [discriminate|].
  destruct p as [|p]; simpl.
  - intros [= ->].
    destruct (last_pos (JS.toUpperCase key) rest (S index)) as [j0|] eqn:Hl.
    + exists j0. split; [reflexivity|].
      destruct (last_pos_Some _ _ _ _ Hl) as (key0 & Hk & Hle & _).
      apply lookup_lt_Some in Hk. lia.
    + rewrite jsstring_eqb_refl. exists index. split; [reflexivity|lia].
  - intros Hk. destruct (IH (S index) p key Hk) as (j & -> & Hj).
    exists j. split; [reflexivity|lia].
Qed.

Lemma last_pos_NoDup keys : forall index p key,
  NoDup (map JS.toUpperCase keys) -> keys !! p = Some key ->
  last_pos (JS.toUpperCase key) keys index = Some (index + p).
Proof.
  intros index p key Hnd Hk.
  destruct (last_pos_ge keys index p key Hk) as (j & Hl & Hj).
  rewrite Hl. f_equal.
  destruct (last_pos_Some _ _ _ _ Hl) as (key0 & Hk0 & Hle & Hup & _).
  assert (Hinj : j - index = p).
  { eapply NoDup_lookup; [exact Hnd| |].
    - rewrite list_lookup_fmap, Hk0. simpl. now rewrite Hup.
    - now rewrite list_lookup_fmap, Hk. }
  lia.
Qed.

End Reduction.

(* ===================================================================== *)
(** * The reverse index and the cached arrays                             *)
(* ===================================================================== *)

Section Populate.
Context {V : Type} `{Countable V}.
Implicit Types (es : list (jsstring * V)) (c : V).

Lemma populate_fold es : forall (m : gmap V jsstring) ks vs,
  fold_left populate_step es (m, ks, vs) =
  (reverse_index es m, ks ++ map fst es, vs ++ map snd es).
Proof.
  induction es as [|[k v] r IH]; intros m ks vs; simpl.
  - now rewrite !app_nil_r.
  - rewrite IH. unfold reverse_index. simpl. now rewrite <- !app_assoc.
Qed.

Lemma build_eq (o : JS.object V) :
  build o = mkInstance o (reverse_index (JS.entries o) ∅)
              (map fst (JS.entries o)) (map snd (JS.entries o)).
Proof. unfold build, populate. now rewrite populate_fold. Qed.

(** [Map.set] overwrites: a code resolves to the key set last. *)
Lemma reverse_index_lookup es : forall (m : gmap V jsstring) c,
  reverse_index es m !! c =
  match last_key c es with Some k => Some k | None => m !! c end.
Proof.
  unfold reverse_index.
  induction es as [|[k v] r IH]; intros m c; simpl; [reflexivity|].
  rewrite IH. destruct (last_key c r); [reflexivity|].
  rewrite lookup_insert. destruct (decide (v = c)); reflexivity.
Qed.

Lemma last_key_In es c k : last_key c es = Some k -> In (k, c) es.
Proof.
  induction es as [|[k0 v0] r IH]; simpl; [discriminate|].
  destruct (last_key c r) as [k'|].
  - intros [= <-]. right. now apply IH.
  - destruct (decide (v0 = c)) as [->|]; [|discriminate].
    intros [= <-]. now left.
Qed.

Lemma last_key_None es c : last_key c es = None <-> ~ In c (map snd es).
Proof.
  induction es as [|[k0 v0] r IH]; simpl; [tauto|].
  destruct (last_key c r) as [k'|].
  - split; [discriminate|]. intros Hn. exfalso.
    assert (Hs : Some k' = None) by (apply IH; tauto). discriminate.
  - destruct (decide (v0 = c)) as [->|Hne].
    + split; [discriminate|tauto].
    + split; [|reflexivity]. intros _ [Heq|Hin]; [congruence|].
      now apply (proj1 IH).
Qed.

Lemma last_key_unique es c k :
  (forall k', In (k', c) es -> k' = k) -> In (k, c) es ->
  last_key c es = Some k.
Proof.
  intros Huniq Hin. destruct (last_key c es) as [k'|] eqn:Hl.
  - f_equal. apply Huniq. now apply last_key_In.
  - apply last_key_None in Hl. exfalso. apply Hl.
    apply (in_map snd) in Hin. exact Hin.
Qed.

End Populate.

(* ===================================================================== *)
(** * What [build] closes over                                            *)
(* ===================================================================== *)

Section BuildFacts.
Context {V : Type} `{Countable V}.
Implicit Types (o : JS.object V) (c : V) (k : jsstring).

Lemma keys_build o : keys (build o) = map fst (JS.entries o).
Proof. now rewrite build_eq. Qed.

Lemma values_build o : values (build o) = map snd (JS.entries o).
Proof. now rewrite build_eq. Qed.

Lemma forward_build o k : forward (build o) k = JS.get k o.
Proof. now rewrite build_eq. Qed.

Lemma getKeyByValue_build o c :
  getKeyByValue (build o) c = last_key c (JS.entries o).
Proof.
  rewrite build_eq. unfold getKeyByValue. simpl.
  rewrite reverse_index_lookup, lookup_empty. now destruct (last_key _ _).
Qed.

Lemma isValue_getKeyByValue (e : Instance V) c :
  isValue e c = true <-> exists k, getKeyByValue e c = Some k.
Proof.
  unfold isValue, getKeyByValue. rewrite bool_decide_eq_true.
  unfold is_Some. reflexivity.
Qed.

Lemma isValue_build o c : isValue (build o) c = true <-> In c (values (build o)).
Proof.
  rewrite isValue_getKeyByValue, getKeyByValue_build, values_build.
  destruct (last_key c (JS.entries o)) as [k|] eqn:Hl.
  - split; [intros _|eauto].
    apply last_key_In in Hl. apply (in_map snd) in Hl. exact Hl.
  - split; [intros (k & Hk); discriminate|].
    intros Hin. now apply last_key_None in Hl.
Qed.

(** A code of the instance resolves to a name that is bound to it. *)
Lemma getKeyByValue_bound o c :
  NoDup (map fst o) -> In c (values (build o)) ->
  exists k, getKeyByValue (build o) c = Some k /\ forward (build o) k = Some c.
Proof.
  intros Hnd Hin. apply isValue_build, isValue_getKeyByValue in Hin.
  destruct Hin as (k & Hk). exists k. split; [exact Hk|].
  rewrite getKeyByValue_build in Hk.
  apply last_key_In in Hk. apply (proj1 (entries_In _ _)) in Hk.
  rewrite forward_build. now apply In_get.
Qed.

(** When no two names share a code, the reverse index inverts the forward
    mapping. *)
Lemma getKeyByValue_forward o c k :
  NoDup (map fst o) ->
  (forall k1 k2 c', JS.get k1 o = Some c' -> JS.get k2 o = Some c' -> k1 = k2) ->
  forward (build o) k = Some c -> getKeyByValue (build o) c = Some k.
Proof.
  intros Hnd Hinj Hf. rewrite forward_build in Hf.
  rewrite getKeyByValue_build. apply last_key_unique.
  - intros k' Hk'. apply (proj1 (entries_In _ _)) in Hk'.
    apply (In_get _ _ _ Hnd) in Hk'. exact (Hinj _ _ _ Hk' Hf).
  - apply entries_In. now apply get_In.
Qed.

Lemma unknown_code (e : Instance V) c :
  isValue e c = false ->
  getKeyByValue e c = None /\ getDisplayName e c = "" /\
  forall formatter, getFormattedName e c formatter = "".
Proof.
  intros Hv. assert (Hk : getKeyByValue e c = None).
  { destruct (getKeyByValue e c) as [k|] eqn:Hk; [|reflexivity].
    assert (Ht : isValue e c = true) by (apply isValue_getKeyByValue; eauto).
    congruence. }
  unfold getDisplayName, getFormattedName. now rewrite Hk.
Qed.

(** The two cached arrays are the two columns of one list of entries, each of
    which is a binding of the forward mapping. *)
Lemma entry_binding o i k c :
  NoDup (map fst o) ->
  keys (build o) !! i = Some k -> values (build o) !! i = Some c ->
  forward (build o) k = Some c.
Proof.
  intros Hnd. rewrite keys_build, values_build, forward_build.
  rewrite !list_lookup_fmap.
  destruct (JS.entries o !! i) as [[k0 c0]|] eqn:He; simpl; [|discriminate].
  intros [= <-] [= <-]. apply In_get; [exact Hnd|].
  apply entries_In. apply list_elem_of_In. eapply list_elem_of_lookup_2, He.
Qed.

(** The display name of a known code follows the specification's rule. *)
Lemma getDisplayName_known (e : Instance V) c k :
  getKeyByValue e c = Some k -> getDisplayName e c = spec_display_name k.
Proof.
  intros Hk. unfold getDisplayName. rewrite Hk.
  destruct (jsstring_eqb_spec k "") as [->|_]; [reflexivity|apply title_case_spec].
Qed.

(** [isKey] looks the uppercased name up among the name properties: the
    utility properties never match an uppercased jsstring. *)
Lemma isKey_forward (e : Instance V) (s : jsstring) :
  isKey e s = JS.hasOwnProperty (JS.toUpperCase s) (enumObject e).
Proof. unfold isKey. now rewrite toUpperCase_not_utility, orb_false_r. Qed.

Lemma isKey_upper (e : Instance V) (s : jsstring) :
  isKey e s = isKey e (JS.toUpperCase s).
Proof. now rewrite !isKey_forward, toUpperCase_idem. Qed.

End BuildFacts.

(* ===================================================================== *)
(** * The constructors: when they return, and what                        *)
(* ===================================================================== *)

Section Constructors.

Lemma reduce_byte keys : forall index acc,
  index <= 256 ->
  reduce byte_callback keys index acc =
  if (index + length keys <=? 256)%nat
  then Return (assign Z.of_nat keys index acc) else Throw byte_overflow.
Proof.
  induction keys as [|key rest IH]; intros index acc Hi; simpl.
  - rewrite Nat.add_0_r. now destruct (Nat.leb_spec index 256); [|lia].
  - unfold byte_callback at 1.
    destruct (Nat.ltb_spec 255 index).
    + now destruct (Nat.leb_spec (index + S (length rest)) 256); [lia|].
    + rewrite IH by lia. now replace (S index + length rest)
        with (index + S (length rest)) by lia.
Qed.

Lemma reduce_char charSet keys : forall index acc,
  index <= JS.length charSet ->
  reduce (char_callback charSet) keys index acc =
  if (index + length keys <=? JS.length charSet)%nat
  then Return (assign (JS.index charSet) keys index acc)
  else Throw (char_overflow charSet).
Proof.
  induction keys as [|key rest IH]; intros index acc Hi; simpl.
  - rewrite Nat.add_0_r.
    now destruct (Nat.leb_spec index (JS.length charSet)); [|lia].
  - unfold char_callback at 1.
    destruct (Nat.leb_spec (JS.length charSet) index).
    + now destruct (Nat.leb_spec (index + S (length rest))
                      (JS.length charSet)); [lia|].
    + rewrite IH by lia. now replace (S index + length rest)
        with (index + S (length rest)) by lia.
Qed.

Lemma createByteEnum_eq (names : list jsstring) :
  createByteEnum names =
  if (length names <=? 256)%nat
  then Return (build (assign Z.of_nat names 0 [])) else Throw byte_overflow.
Proof.
  unfold createByteEnum. rewrite reduce_byte by lia. simpl.
  now destruct (length names <=? 256)%nat.
Qed.

Lemma createCharEnum_eq (names : list jsstring) (customCharSet : option jsstring) :
  createCharEnum names customCharSet =
  let charSet := effective_charSet customCharSet in
  if (length names <=? JS.length charSet)%nat
  then Return (build (assign (JS.index charSet) names 0 []))
  else Throw (char_overflow charSet).
Proof.
  unfold createCharEnum. simpl. rewrite reduce_char by lia. simpl.
  now destruct (length names <=? _)%nat.
Qed.

Lemma createByteEnum_Return names e :
  createByteEnum names = Return e ->
  length names <= 256 /\ e = build (assign Z.of_nat names 0 []).
Proof.
  rewrite createByteEnum_eq.
  destruct (Nat.leb_spec (length names) 256); [|discriminate].
  intros [= <-]. split; [lia|reflexivity].
Qed.

Lemma createCharEnum_Return names customCharSet e :
  createCharEnum names customCharSet = Return e ->
  length names <= JS.length (effective_charSet customCharSet) /\
  e = build (assign (JS.index (effective_charSet customCharSet)) names 0 []).
Proof.
  rewrite createCharEnum_eq. simpl.
  destruct (Nat.leb_spec (length names)
              (JS.length (effective_charSet customCharSet)));
    [|discriminate].
  intros [= <-]. split; [lia|reflexivity].
Qed.

Lemma assign_nil_NoDup {V : Type} (code : nat -> V) names :
  NoDup (map fst (assign code names 0 [])).
Proof. apply assign_NoDup. constructor. Qed.

Lemma default_charSet_length : JS.length default_charSet = 256.
Proof. vm_compute. reflexivity. Qed.

End Constructors.

(* ===================================================================== *)
(** * Order of [keys()] and [values()]                                    *)
(* ===================================================================== *)

Section InputOrder.
Context {V : Type} `{Countable V}.

Lemma combine_fst {A B : Type} (l : list A) : forall (l' : list B),
  length l = length l' -> map fst (combine l l') = l.
Proof.
  induction l as [|a l IH]; intros [|b l'] Hlen; simpl in *;
    try discriminate; [reflexivity|].
  f_equal. apply IH. lia.
Qed.

Lemma combine_snd {A B : Type} (l : list A) : forall (l' : list B),
  length l = length l' -> map snd (combine l l') = l'.
Proof.
  induction l as [|a l IH]; intros [|b l'] Hlen; simpl in *;
    try discriminate; [reflexivity|].
  f_equal. apply IH. lia.
Qed.

(** Pairwise distinct names, none of them an array index: the two cached
    arrays follow the input. *)
Lemma build_in_order (code : nat -> V) (names : list jsstring) :
  NoDup (map JS.toUpperCase names) ->
  (forall name, In name names ->
     JS.is_array_index (JS.toUpperCase name) = false) ->
  keys (build (assign code names 0 [])) = map JS.toUpperCase names /\
  values (build (assign code names 0 [])) = map code (seq 0 (length names)).
Proof.
  intros Hnd Hnamed.
  assert (Hlen : length (map JS.toUpperCase names)
                 = length (map code (seq 0 (length names)))).
  { now rewrite !length_map, length_seq. }
  rewrite keys_build, values_build.
  rewrite (assign_fresh code names 0 [] Hnd) by (intros; simpl; tauto).
  simpl. rewrite entries_named.
  - split; [now apply combine_fst|now apply combine_snd].
  - intros [k c] Hin. apply in_combine_l in Hin. simpl.
    apply in_map_iff in Hin. destruct Hin as (name & <- & Hin).
    now apply Hnamed.
Qed.

End InputOrder.

(** Array-index names are enumerated first, in numeric order, whatever the
    input order. *)
Example keys_array_index_first :
  exists e, createByteEnum ["B"; "1"; "A"; "0"] = Return e /\
    keys e = ["0"; "1"; "B"; "A"] /\ values e = [3; 1; 0; 2]%Z.
Proof. eexists. split; [reflexivity|]. vm_compute. auto. Qed.

(** Case mapping beyond a-z: U+00E9 and U+00C9 are one key, U+00DF becomes
    SS, and the display name of CAF U+00C9 ends in U+00E9. *)
Example latin1_names_collide :
  exists e, createByteEnum [JS.fromCharCode 233; JS.fromCharCode 201] = Return e /\
    keys e = [JS.fromCharCode 201] /\ values e = [1%Z] /\
    isKey e (JS.fromCharCode 233) = true.
Proof. eexists. split; [reflexivity|]. vm_compute. auto. Qed.

Example sharp_s_key :
  exists e,
    createByteEnum ["stra" +:+ JS.fromCharCode 223 +:+ "e"] = Return e /\
    keys e = ["STRASSE"] /\ getDisplayName e 0%Z = "Strasse".
Proof. eexists. split; [reflexivity|]. vm_compute. auto. Qed.

Example latin1_display_name :
  exists e, createByteEnum ["CAF" +:+ JS.fromCharCode 201] = Return e /\
    getDisplayName e 0%Z = "Caf" +:+ JS.fromCharCode 233 /\
    isKey e ("caf" +:+ JS.fromCharCode 233) = true.
Proof. eexists. split; [reflexivity|]. vm_compute. auto. Qed.

Example outside_latin1 :
  JS.toUpperCase (JS.fromCharCode 255) = JSCons U0178 JSEmpty /\
  JS.toUpperCase (JS.fromCharCode 181) = JSCons U039C JSEmpty /\
  JS.toLowerCase (JSCons U039C (JSCons U0178 JSEmpty))
  = JSCons U03BC (JS.fromCharCode 255).
Proof. vm_compute. auto. Qed.

(** C1, as stated, fails: the names "a" and "A" are within the capacity of
    the byte constructor, yet [keys()] is not the list of the uppercased
    names in input order: the two names collapse into one key. *)
Lemma C1_counterexample :
  exists e, createByteEnum ["a"; "A"] = Return e /\
    length ["a"; "A"] <= 256 /\
    keys e <> map JS.toUpperCase ["a"; "A"].
Proof.
  eexists. split; [reflexivity|]. split; [simpl; lia|].
  vm_compute. discriminate.
Qed.

(** C1, amended: for every name list within the capacity (256 for the byte
    constructor, the length of the code-set in use for the char constructor)
    whose uppercased names are pairwise distinct and none of which is an
    array index, [keys()] is the list of the uppercased names in input
    order, [values()] is the list of the assigned codes in the same order,
    and the forward mapping binds [keys()[i]] to [values()[i]] for every
    index [i]. *)
Theorem C1_keys_values_in_input_order :
  forall names : list jsstring,
    NoDup (map JS.toUpperCase names) ->
    (forall name, In name names ->
       JS.is_array_index (JS.toUpperCase name) = false) ->
    (length names <= 256 ->
     exists e, createByteEnum names = Return e /\
       keys e = map JS.toUpperCase names /\
       values e = map Z.of_nat (seq 0 (length names)) /\
       forall i k c, keys e !! i = Some k -> values e !! i = Some c ->
         forward e k = Some c) /\
    (forall customCharSet,
     length names <= JS.length (effective_charSet customCharSet) ->
     exists e, createCharEnum names customCharSet = Return e /\
       keys e = map JS.toUpperCase names /\
       values e = map (JS.index (effective_charSet customCharSet))
                    (seq 0 (length names)) /\
       forall i k c, keys e !! i = Some k -> values e !! i = Some c ->
         forward e k = Some c).
Proof.
  intros names Hnd Hnamed. split.
  - intros Hlen. eexists. rewrite createByteEnum_eq.
    destruct (Nat.leb_spec (length names) 256); [|lia].
    split; [reflexivity|].
    destruct (build_in_order Z.of_nat names Hnd Hnamed) as [Hk Hv].
    repeat split; [exact Hk|exact Hv|].
    intros i k c. apply entry_binding, assign_nil_NoDup.
  - intros customCharSet Hlen. eexists. rewrite createCharEnum_eq. simpl.
    destruct (Nat.leb_spec (length names)
                (JS.length (effective_charSet customCharSet))); [|lia].
    split; [reflexivity|].
    destruct (build_in_order (JS.index (effective_charSet customCharSet))
                names Hnd Hnamed) as [Hk Hv].
    repeat split; [exact Hk|exact Hv|].
    intros i k c. apply entry_binding, assign_nil_NoDup.
Qed.

Lemma C1_witness :
  (exists e, createByteEnum ["one"; "Two"; "THREE"] = Return e /\
     keys e = ["ONE"; "TWO"; "THREE"] /\ values e = [0; 1; 2]%Z /\
     forall i k c, keys e !! i = Some k -> values e !! i = Some c ->
       forward e k = Some c) /\
  (exists e, createCharEnum ["Red"; "green"; "BLUE"] (Some "RGB") = Return e /\
     keys e = ["RED"; "GREEN"; "BLUE"] /\ values e = ["R"; "G"; "B"] /\
     forall i k c, keys e !! i = Some k -> values e !! i = Some c ->
       forward e k = Some c).
Proof.
  split.
  - apply (C1_keys_values_in_input_order ["one"; "Two"; "THREE"]).
    + apply (bool_decide_unpack _). vm_compute. exact I.
    + intros name Hin. simpl in Hin.
      repeat (destruct Hin as [<- | Hin]; [reflexivity|]). destruct Hin.
    + simpl. lia.
  - apply (C1_keys_values_in_input_order ["Red"; "green"; "BLUE"]
             ltac:(apply (bool_decide_unpack _); vm_compute; exact I)
             ltac:(intros name Hin; simpl in Hin;
                   repeat (destruct Hin as [<- | Hin]; [reflexivity|]);
                   destruct Hin)).
    vm_compute. lia.
Defined.

(* ===================================================================== *)
(** * Capacity                                                            *)
(* ===================================================================== *)

Lemma effective_charSet_Some (charSet : jsstring) :
  charSet <> "" -> effective_charSet (Some charSet) = charSet.
Proof.
  intros Hne. unfold effective_charSet, falsy.
  now destruct (jsstring_eqb_spec charSet "").
Qed.

Lemma createByteEnum_overflow (names : list jsstring) :
  256 < length names -> createByteEnum names = Throw byte_overflow.
Proof.
  intros Hlen. rewrite createByteEnum_eq.
  now destruct (Nat.leb_spec (length names) 256); [lia|].
Qed.

Lemma createCharEnum_overflow (names : list jsstring) customCharSet :
  JS.length (effective_charSet customCharSet) < length names ->
  createCharEnum names customCharSet
  = Throw (char_overflow (effective_charSet customCharSet)).
Proof.
  intros Hlen. rewrite createCharEnum_eq. simpl.
  now destruct (Nat.leb_spec (length names)
                  (JS.length (effective_charSet customCharSet))); [lia|].
Qed.

(** C2: a byte enumeration of exactly 256 names is constructed, one of 257
    names throws the capacity error, and a char enumeration of 4 names over a
    3-character code-set throws the capacity error whose message names the
    limit 3.  A throwing construction returns no instance: the completion is
    the error alone, for every list longer than the code space. *)
Theorem C2_capacity_boundary :
  (forall names, length names = 256 ->
     exists e, createByteEnum names = Return e) /\
  (forall names, length names = 257 ->
     createByteEnum names
     = Throw (CapacityExceeded "Byte enum cannot have more than 256 values")) /\
  (forall names charSet, JS.length charSet = 3 -> length names = 4 ->
     createCharEnum names (Some charSet)
     = Throw (CapacityExceeded "Enum has too many values (max: 3)")) /\
  (forall names, 256 < length names ->
     createByteEnum names = Throw byte_overflow /\
     forall e, createByteEnum names <> Return e) /\
  (forall names customCharSet,
     JS.length (effective_charSet customCharSet) < length names ->
     createCharEnum names customCharSet
     = Throw (char_overflow (effective_charSet customCharSet)) /\
     forall e, createCharEnum names customCharSet <> Return e).
Proof.
  repeat split.
  - intros names Hlen. eexists. rewrite createByteEnum_eq, Hlen. reflexivity.
  - intros names Hlen. apply createByteEnum_overflow. lia.
  - intros names charSet Hcs Hlen.
    assert (Hne : charSet <> "") by (intros ->; discriminate).
    rewrite createCharEnum_overflow; rewrite effective_charSet_Some by exact Hne;
      [|lia].
    unfold char_overflow. rewrite Hcs. reflexivity.
  - now apply createByteEnum_overflow.
  - intros e. rewrite createByteEnum_overflow by assumption. discriminate.
  - now apply createCharEnum_overflow.
  - intros e. rewrite createCharEnum_overflow by assumption. discriminate.
Qed.

Lemma C2_witness :
  (exists e, createByteEnum (numbered_keys 256) = Return e) /\
  createByteEnum (numbered_keys 257)
  = Throw (CapacityExceeded "Byte enum cannot have more than 256 values") /\
  createCharEnum ["ONE"; "TWO"; "THREE"; "FOUR"] (Some "ABC")
  = Throw (CapacityExceeded "Enum has too many values (max: 3)").
Proof.
  destruct C2_capacity_boundary as (H256 & H257 & Hchar & _).
  split; [|split].
  - apply (H256 (numbered_keys 256)). vm_compute. reflexivity.
  - apply (H257 (numbered_keys 257)). vm_compute. reflexivity.
  - apply (Hchar ["ONE"; "TWO"; "THREE"; "FOUR"] "ABC"); reflexivity.
Defined.

(* ===================================================================== *)
(** * Reverse lookup                                                      *)
(* ===================================================================== *)

(** Distinct codes at distinct positions: no two names share a code. *)
Lemma assign_injective {V : Type} (code : nat -> V) (names : list jsstring) :
  (forall i j, i < length names -> j < length names ->
     code i = code j -> i = j) ->
  forall k1 k2 c,
    JS.get k1 (assign code names 0 []) = Some c ->
    JS.get k2 (assign code names 0 []) = Some c -> k1 = k2.
Proof.
  intros Hinj k1 k2 c. rewrite !assign_get. simpl.
  destruct (last_pos k1 names 0) as [j1|] eqn:H1; [|discriminate].
  destruct (last_pos k2 names 0) as [j2|] eqn:H2; [|discriminate].
  intros [= <-] [= Hc].
  destruct (last_pos_Some _ _ _ _ H1) as (key1 & Hk1 & _ & Hu1 & _).
  destruct (last_pos_Some _ _ _ _ H2) as (key2 & Hk2 & _ & Hu2 & _).
  rewrite Nat.sub_0_r in Hk1, Hk2.
  assert (Hj : j2 = j1).
  { apply Hinj; [apply lookup_lt_Some in Hk2|apply lookup_lt_Some in Hk1|];
      assumption. }
  subst j2. congruence.
Qed.

(* ===================================================================== *)
(** * The byte constructor: codes and collisions                          *)
(* ===================================================================== *)

Section ForwardMapping.
Context {V : Type} `{Countable V}.

Lemma forward_assign (code : nat -> V) (names : list jsstring) (k : jsstring) :
  forward (build (assign code names 0 [])) k = code <$> last_pos k names 0.
Proof.
  rewrite forward_build, assign_get. now destruct (last_pos k names 0).
Qed.

Lemma forward_values (o : JS.object V) k c :
  forward (build o) k = Some c -> In c (values (build o)).
Proof.
  rewrite forward_build, values_build. intros Hg.
  apply get_In, entries_In in Hg. apply (in_map snd) in Hg. exact Hg.
Qed.

Lemma values_forward (o : JS.object V) c :
  NoDup (map fst o) -> In c (values (build o)) ->
  exists k, forward (build o) k = Some c.
Proof.
  intros Hnd Hin. destruct (getKeyByValue_bound o c Hnd Hin) as (k & _ & Hk).
  eauto.
Qed.

(** Each name is bound to the code of the last position that carries the
    same uppercased name. *)
Lemma forward_last_occurrence (code : nat -> V) names i name :
  names !! i = Some name ->
  exists j name',
    i <= j < length names /\ names !! j = Some name' /\
    JS.toUpperCase name' = JS.toUpperCase name /\
    (forall l nl, j < l -> names !! l = Some nl ->
       JS.toUpperCase nl <> JS.toUpperCase name) /\
    forward (build (assign code names 0 [])) (JS.toUpperCase name)
    = Some (code j).
Proof.
  intros Hi. destruct (last_pos_ge names 0 i name Hi) as (j & Hl & Hj).
  destruct (last_pos_Some _ _ _ _ Hl) as (name' & Hn' & _ & Hup & Hlast).
  rewrite Nat.sub_0_r in Hn'.
  exists j, name'. repeat split; [lia|lia|exact Hn'|exact Hup| |].
  - intros l nl Hlt Hnl. apply (Hlast l nl Hlt). now rewrite Nat.sub_0_r.
  - now rewrite forward_assign, Hl.
Qed.

End ForwardMapping.

(** C4, as stated, fails: 257 copies of one name have a single distinct
    normalized name, and the byte constructor throws the capacity error. *)
Lemma C4_counterexample :
  length (remove_dups (map JS.toUpperCase (List.repeat "A" 257))) <= 256 /\
  createByteEnum (List.repeat "A" 257)
  = Throw (CapacityExceeded "Byte enum cannot have more than 256 values").
Proof. split; [vm_compute; lia|vm_compute; reflexivity]. Qed.

(** C4, amended: the byte constructor, given an ordered sequence of at most
    256 names (the length of the sequence, not the count of distinct
    normalized names), produces an instance; every normalized name is bound
    to the index of its last occurrence in the input, so that when the
    normalized names are pairwise distinct the i-th name has code i and the
    codes are exactly the integers 0..n-1. *)
Theorem C4_byte_constructor_contract :
  forall names, length names <= 256 ->
    exists e, createByteEnum names = Return e /\
      (forall i name, names !! i = Some name ->
         exists j name',
           i <= j < length names /\ names !! j = Some name' /\
           JS.toUpperCase name' = JS.toUpperCase name /\
           (forall l nl, j < l -> names !! l = Some nl ->
              JS.toUpperCase nl <> JS.toUpperCase name) /\
           forward e (JS.toUpperCase name) = Some (Z.of_nat j)) /\
      (NoDup (map JS.toUpperCase names) ->
         (forall i name, names !! i = Some name ->
            forward e (JS.toUpperCase name) = Some (Z.of_nat i)) /\
         (forall c, In c (values e)
                    <-> (0 <= c < Z.of_nat (length names))%Z)).
Proof.
  intros names Hlen. eexists. rewrite createByteEnum_eq.
  destruct (Nat.leb_spec (length names) 256); [|lia].
  split; [reflexivity|]. split.
  - intros i name. apply forward_last_occurrence.
  - intros Hnd.
    assert (Hfw : forall i name, names !! i = Some name ->
      forward (build (assign Z.of_nat names 0 [])) (JS.toUpperCase name)
      = Some (Z.of_nat i)).
    { intros i name Hi.
      now rewrite forward_assign, (last_pos_NoDup names 0 i name Hnd Hi). }
    split; [exact Hfw|]. intros c. split.
    + intros Hin. apply values_forward in Hin; [|apply assign_nil_NoDup].
      destruct Hin as (k & Hk). rewrite forward_assign in Hk.
      destruct (last_pos k names 0) as [j|] eqn:Hl; [|discriminate].
      injection Hk as <-.
      destruct (last_pos_Some _ _ _ _ Hl) as (key & Hkey & _).
      apply lookup_lt_Some in Hkey. lia.
    + intros Hc.
      destruct (lookup_lt_is_Some_2 names (Z.to_nat c)) as [name Hname]; [lia|].
      apply (forward_values _ (JS.toUpperCase name)).
      rewrite (Hfw _ _ Hname). f_equal. lia.
Qed.

Lemma C4_witness :
  exists e, createByteEnum ["one"; "Two"; "THREE"] = Return e /\
    forward e "ONE" = Some 0%Z /\ forward e "TWO" = Some 1%Z /\
    forward e "THREE" = Some 2%Z /\
    forall c, In c (values e) <-> (0 <= c < 3)%Z.
Proof.
  destruct (C4_byte_constructor_contract ["one"; "Two"; "THREE"])
    as (e & He & _ & Hdistinct); [simpl; lia|].
  exists e. split; [exact He|].
  destruct Hdistinct as [Hfw Hvals];
    [apply (bool_decide_unpack _); vm_compute; exact I|].
  split; [exact (Hfw 0 "one" eq_refl)|].
  split; [exact (Hfw 1 "Two" eq_refl)|].
  split; [exact (Hfw 2 "THREE" eq_refl)|exact Hvals].
Defined.

(** C10: when two names of the byte constructor's input collide after
    uppercase normalization, the surviving forward entry carries the
    positional index of a later name (of the later of the two when the name
    does not occur again); the earlier index is absent from the finished
    instance ([isValue] is false on it and it is not in [values()]) while
    the last index of the input is present, so the codes are not the
    contiguous range 0..n-1 for any n, in particular not for the size of the
    instance. *)
Theorem C10_collision_leaves_gap :
  forall names i j ni nj,
    length names <= 256 -> i < j ->
    names !! i = Some ni -> names !! j = Some nj ->
    JS.toUpperCase ni = JS.toUpperCase nj ->
    exists e, createByteEnum names = Return e /\
      (exists l, j <= l < length names /\
         forward e (JS.toUpperCase ni) = Some (Z.of_nat l)) /\
      ((forall l nl, j < l -> names !! l = Some nl ->
          JS.toUpperCase nl <> JS.toUpperCase nj) ->
       forward e (JS.toUpperCase ni) = Some (Z.of_nat j)) /\
      isValue e (Z.of_nat i) = false /\
      ~ In (Z.of_nat i) (values e) /\
      In (Z.of_nat (length names - 1)) (values e) /\
      (forall n : nat,
         ~ (forall c, In c (values e) <-> (0 <= c < Z.of_nat n)%Z)) /\
      ~ (forall c, In c (values e)
                   <-> (0 <= c < Z.of_nat (length (values e)))%Z).
Proof.
  intros names i j ni nj Hlen Hij Hi Hj Hup. eexists.
  rewrite createByteEnum_eq.
  destruct (Nat.leb_spec (length names) 256); [|lia].
  split; [reflexivity|].
  set (e := build (assign Z.of_nat names 0 [])).
  assert (Hjlen : j < length names) by (now apply lookup_lt_Some in Hj).
  assert (Hlater : exists l, j <= l < length names /\
            last_pos (JS.toUpperCase ni) names 0 = Some l).
  { rewrite Hup. destruct (last_pos_ge names 0 j nj Hj) as (l & Hl & Hlj).
    exists l. split; [lia|exact Hl]. }
  assert (Habsent : ~ In (Z.of_nat i) (values e)).
  { intros Hin. apply values_forward in Hin; [|apply assign_nil_NoDup].
    destruct Hin as (k & Hk). unfold e in Hk. rewrite forward_assign in Hk.
    destruct (last_pos k names 0) as [i'|] eqn:Hl; [|discriminate].
    injection Hk as Hk. apply Nat2Z.inj in Hk. subst i'.
    destruct (last_pos_Some _ _ _ _ Hl) as (key & Hkey & _ & Hkup & Hlast).
    rewrite Nat.sub_0_r in Hkey. rewrite Hi in Hkey. injection Hkey as <-.
    apply (Hlast j nj Hij); [now rewrite Nat.sub_0_r|congruence]. }
  assert (Hpresent : In (Z.of_nat (length names - 1)) (values e)).
  { destruct (lookup_lt_is_Some_2 names (length names - 1)) as [nl Hnl];
      [lia|].
    apply (forward_values _ (JS.toUpperCase nl)). unfold e.
    rewrite forward_assign.
    destruct (last_pos_ge names 0 _ nl Hnl) as (l & -> & Hl).
    simpl. do 2 f_equal. lia. }
  assert (Hgap : forall n : nat,
            ~ (forall c, In c (values e) <-> (0 <= c < Z.of_nat n)%Z)).
  { intros n Hrange. apply Habsent, Hrange.
    apply Hrange in Hpresent. lia. }
  repeat split.
  - destruct Hlater as (l & Hl & Hpos). exists l. split; [exact Hl|].
    unfold e. now rewrite forward_assign, Hpos.
  - intros Hnomore. unfold e. rewrite forward_assign.
    destruct Hlater as (l & Hl & Hpos). rewrite Hpos. simpl. do 2 f_equal.
    destruct (last_pos_Some _ _ _ _ Hpos) as (nl & Hnl & _ & Hlup & _).
    rewrite Nat.sub_0_r in Hnl.
    destruct (Nat.eq_dec l j) as [->|Hne]; [reflexivity|].
    exfalso. apply (Hnomore l nl); [lia|exact Hnl|congruence].
  - destruct (isValue e (Z.of_nat i)) eqn:Hv; [|reflexivity].
    apply isValue_build in Hv. contradiction.
  - exact Habsent.
  - exact Hpresent.
  - exact Hgap.
  - apply Hgap.
Qed.

Lemma C10_witness :
  exists e, createByteEnum ["a"; "B"; "A"] = Return e /\
    forward e "A" = Some 2%Z /\ isValue e 0%Z = false /\
    ~ In 0%Z (values e) /\ In 2%Z (values e) /\ length (values e) = 2.
Proof.
  destruct (C10_collision_leaves_gap ["a"; "B"; "A"] 0 2 "a" "A")
    as (e & He & _ & Hfw & Hv & Hout & Hin & _);
    [simpl; lia|lia|reflexivity|reflexivity|reflexivity|].
  exists e. split; [exact He|].
  split; [apply Hfw; intros [|[|[|l]]] nl Hl; try lia; discriminate|].
  split; [exact Hv|]. split; [exact Hout|]. split; [exact Hin|].
  apply createByteEnum_Return in He as [_ ->]. vm_compute. reflexivity.
Defined.

(* ===================================================================== *)
(** * Display names                                                       *)
(* ===================================================================== *)

(** A key of the forward mapping is the uppercase form of an input name. *)
Lemma forward_is_name {V : Type} `{Countable V} (code : nat -> V) names k c :
  forward (build (assign code names 0 [])) k = Some c ->
  exists name, In name names /\ JS.toUpperCase name = k.
Proof.
  rewrite forward_assign.
  destruct (last_pos k names 0) as [j|] eqn:Hl; [|discriminate]. intros _.
  destruct (last_pos_Some _ _ _ _ Hl) as (name & Hname & _ & Hup & _).
  exists name. split; [|exact Hup].
  apply list_elem_of_In. eapply list_elem_of_lookup_2, Hname.
Qed.

Lemma known_code_display {V : Type} `{Countable V} (code : nat -> V) names c :
  In c (values (build (assign code names 0 []))) ->
  exists name k,
    In name names /\ k = JS.toUpperCase name /\
    forward (build (assign code names 0 [])) k = Some c /\
    getKeyByValue (build (assign code names 0 [])) c = Some k /\
    getDisplayName (build (assign code names 0 [])) c = spec_display_name k.
Proof.
  intros Hin.
  destruct (getKeyByValue_bound _ c (assign_nil_NoDup code names) Hin)
    as (k & Hk & Hf).
  destruct (forward_is_name code names k c Hf) as (name & Hname & Hup).
  exists name, k. repeat split; [exact Hname|now symmetry|exact Hf|exact Hk|].
  now apply getDisplayName_known.
Qed.

(** C5, as stated, fails: over the code-set "XX" the code "X" is bound to
    the name A at construction, and its display name is not the display rule
    applied to A (it is the rule applied to B, the other name bound to
    "X"). *)
Lemma C5_counterexample :
  exists e, createCharEnum ["A"; "B"] (Some "XX") = Return e /\
    forward e "A" = Some "X" /\
    getDisplayName e "X" <> spec_display_name "A".
Proof.
  eexists. split; [reflexivity|]. split; [reflexivity|].
  vm_compute. discriminate.
Qed.

(** C5, amended: for every code bound to a name in the constructed
    instance, [getDisplayName(code)] is the display rule (split on
    underscore, lowercase each segment, uppercase its first character, join
    with single spaces) applied to the normalized name that [getKeyByValue]
    resolves the code to; that name is the name bound to the code whenever
    no two names were given the same code: always for the byte constructor,
    and for the char constructor when the code-set characters in use are
    pairwise distinct.  NON_BINARY gives "Non Binary" and ACTIVE gives
    "Active". *)
Theorem C5_display_name_rule :
  (forall names e k c, createByteEnum names = Return e ->
     forward e k = Some c -> getDisplayName e c = spec_display_name k) /\
  (forall names customCharSet e k c,
     createCharEnum names customCharSet = Return e ->
     forward e k = Some c ->
     (exists k', getKeyByValue e c = Some k' /\ forward e k' = Some c /\
        getDisplayName e c = spec_display_name k') /\
     ((forall i j, i < length names -> j < length names ->
         JS.index (effective_charSet customCharSet) i
         = JS.index (effective_charSet customCharSet) j -> i = j) ->
      getDisplayName e c = spec_display_name k)) /\
  spec_display_name "NON_BINARY" = "Non Binary" /\
  spec_display_name "ACTIVE" = "Active".
Proof.
  split; [|split; [|split; reflexivity]].
  - intros names e k c He Hf. apply createByteEnum_Return in He as [_ ->].
    apply getDisplayName_known.
    apply getKeyByValue_forward; [apply assign_nil_NoDup| |exact Hf].
    apply assign_injective. intros i j _ _. apply Nat2Z.inj.
  - intros names customCharSet e k c He Hf.
    apply createCharEnum_Return in He as [_ ->]. split.
    + destruct (getKeyByValue_bound _ c
                  (assign_nil_NoDup
                     (JS.index (effective_charSet customCharSet)) names))
        as (k' & Hk' & Hf'); [now apply (forward_values _ k)|].
      exists k'. split; [exact Hk'|]. split; [exact Hf'|].
      now apply getDisplayName_known.
    + intros Hinj. apply getDisplayName_known.
      apply getKeyByValue_forward; [apply assign_nil_NoDup| |exact Hf].
      now apply assign_injective.
Qed.

Lemma C5_witness :
  (exists e, createByteEnum ["male"; "non_binary"; "Active"] = Return e /\
     getDisplayName e 1%Z = "Non Binary" /\ getDisplayName e 2%Z = "Active") /\
  (exists e, createCharEnum ["NON_BINARY"; "ACTIVE"] (Some "NA") = Return e /\
     getDisplayName e "N" = "Non Binary" /\ getDisplayName e "A" = "Active").
Proof.
  destruct C5_display_name_rule as (Hbyte & Hchar & _). split.
  - eexists. split; [reflexivity|]. split.
    + exact (Hbyte ["male"; "non_binary"; "Active"] _ "NON_BINARY" 1%Z
               eq_refl eq_refl).
    + exact (Hbyte ["male"; "non_binary"; "Active"] _ "ACTIVE" 2%Z
               eq_refl eq_refl).
  - eexists. split; [reflexivity|].
    assert (Hinj : forall i j : nat,
              i < length ["NON_BINARY"; "ACTIVE"] ->
              j < length ["NON_BINARY"; "ACTIVE"] ->
              JS.index (effective_charSet (Some "NA")) i
              = JS.index (effective_charSet (Some "NA")) j -> i = j).
    { intros i j Hi Hj. simpl in Hi, Hj.
      destruct i as [|[|i]]; destruct j as [|[|j]];
        try lia; vm_compute; intros; congruence. }
    split.
    + exact (proj2 (Hchar ["NON_BINARY"; "ACTIVE"] (Some "NA") _
                      "NON_BINARY" "N" eq_refl eq_refl) Hinj).
    + exact (proj2 (Hchar ["NON_BINARY"; "ACTIVE"] (Some "NA") _
                      "ACTIVE" "A" eq_refl eq_refl) Hinj).
Defined.

(* ===================================================================== *)
(** * Code-sets with repeated characters                                  *)
(* ===================================================================== *)

Section Aliasing.
Context {V : Type} `{Countable V}.

Lemma combine_fst_snd {A B : Type} (l : list (A * B)) :
  combine (map fst l) (map snd l) = l.
Proof. induction l as [|[a b] l IH]; simpl; [reflexivity|now rewrite IH]. Qed.

(** The reverse index holds, for each code, the last name of the
    enumeration that carries it. *)
Lemma getKeyByValue_last (o : JS.object V) (c : V) :
  getKeyByValue (build o) c
  = last_key c (combine (keys (build o)) (values (build o))).
Proof.
  now rewrite getKeyByValue_build, keys_build, values_build, combine_fst_snd.
Qed.

Lemma last_pos_last (names : list jsstring) i name :
  names !! i = Some name ->
  (forall l nl, i < l -> names !! l = Some nl ->
     JS.toUpperCase nl <> JS.toUpperCase name) ->
  last_pos (JS.toUpperCase name) names 0 = Some i.
Proof.
  intros Hi Hlast. destruct (last_pos_ge names 0 i name Hi) as (j & Hl & Hj).
  rewrite Hl. f_equal.
  destruct (last_pos_Some _ _ _ _ Hl) as (nl & Hnl & _ & Hup & _).
  rewrite Nat.sub_0_r in Hnl.
  destruct (Nat.eq_dec j i) as [->|Hne]; [reflexivity|].
  exfalso. apply (Hlast j nl); [lia|exact Hnl|exact Hup].
Qed.

Lemma last_key_combine (c : V) (ks : list jsstring) : forall (vs : list V) j k,
  length ks = length vs -> ks !! j = Some k -> vs !! j = Some c ->
  (forall l v, j < l -> vs !! l = Some v -> v <> c) ->
  last_key c (combine ks vs) = Some k.
Proof.
  induction ks as [|k0 ks IH]; intros [|v0 vs] j k Hlen Hk Hv Hlast;
    simpl in *; try discriminate.
  destruct j as [|j]; simpl in *.
  - injection Hk as ->. injection Hv as ->.
    destruct (last_key c (combine ks vs)) as [k'|] eqn:Hl.
    + exfalso. apply last_key_In in Hl.
      apply list_elem_of_In, list_elem_of_lookup in Hl. destruct Hl as (l & Hl).
      assert (Hvl : vs !! l = Some c).
      { clear -Hl. revert vs l Hl.
        induction ks as [|a ks IH]; intros [|b vs] [|l]; simpl;
          try discriminate.
        - now intros [= _ ->].
        - apply IH. }
      exact (Hlast (S l) c ltac:(lia) Hvl eq_refl).
    + now destruct (decide (c = c)).
  - rewrite (IH vs j k); [reflexivity|lia|exact Hk|exact Hv|].
    intros l v Hlt Hl. apply (Hlast (S l) v); [lia|exact Hl].
Qed.

End Aliasing.

(** C6, as stated, fails: over the code-set "XX" the names B and 1 are both
    assigned the code "X", 1 last; the reverse index is filled in the order
    of [Object.entries], where the array index 1 comes first, and
    [getKeyByValue("X")] is B, not the last name assigned to the code. *)
Lemma C6_counterexample :
  exists e, createCharEnum ["B"; "1"] (Some "XX") = Return e /\
    forward e "B" = Some "X" /\ forward e "1" = Some "X" /\
    keys e = ["1"; "B"] /\
    getKeyByValue e "X" = Some "B" /\ getKeyByValue e "X" <> Some "1".
Proof.
  eexists. split; [reflexivity|]. split; [reflexivity|].
  split; [reflexivity|]. split; [reflexivity|]. split; [reflexivity|].
  vm_compute. discriminate.
Qed.

(** C6, amended: over a code-set with a repeated character the char
    constructor returns an instance (the name list being within the length
    of the code-set); two names at positions of the repeated character,
    neither occurring again up to case later in the input, are distinct keys
    bound to that same character, the code-set being used positionally; and
    [getKeyByValue] of the shared code returns one name only, the last name
    of the enumeration [keys()] that carries the code.  When the uppercased
    names are pairwise distinct and none is an array index, this is the name
    at the last input position of that character. *)
Theorem C6_duplicate_code_set :
  forall names charSet i j ni nj,
    charSet <> "" -> length names <= JS.length charSet ->
    i < j -> names !! i = Some ni -> names !! j = Some nj ->
    (forall l nl, i < l -> names !! l = Some nl ->
       JS.toUpperCase nl <> JS.toUpperCase ni) ->
    (forall l nl, j < l -> names !! l = Some nl ->
       JS.toUpperCase nl <> JS.toUpperCase nj) ->
    JS.index charSet i = JS.index charSet j ->
    exists e, createCharEnum names (Some charSet) = Return e /\
      JS.toUpperCase ni <> JS.toUpperCase nj /\
      forward e (JS.toUpperCase ni) = Some (JS.index charSet i) /\
      forward e (JS.toUpperCase nj) = Some (JS.index charSet i) /\
      (exists k,
         getKeyByValue e (JS.index charSet i) = Some k /\
         last_key (JS.index charSet i) (combine (keys e) (values e)) = Some k /\
         forward e k = Some (JS.index charSet i)) /\
      (NoDup (map JS.toUpperCase names) ->
       (forall name, In name names ->
          JS.is_array_index (JS.toUpperCase name) = false) ->
       (forall l, j < l < length names ->
          JS.index charSet l <> JS.index charSet i) ->
       getKeyByValue e (JS.index charSet i) = Some (JS.toUpperCase nj)).
Proof.
  intros names charSet i j ni nj Hne Hlen Hij Hi Hj Hlasti Hlastj Hdup.
  eexists. rewrite createCharEnum_eq, effective_charSet_Some by exact Hne.
  simpl. destruct (Nat.leb_spec (length names) (JS.length charSet)); [|lia].
  split; [reflexivity|].
  set (o := assign (JS.index charSet) names 0 []).
  assert (Hfi : forward (build o) (JS.toUpperCase ni)
                = Some (JS.index charSet i)).
  { unfold o. now rewrite forward_assign, (last_pos_last names i ni Hi Hlasti). }
  assert (Hfj : forward (build o) (JS.toUpperCase nj)
                = Some (JS.index charSet i)).
  { unfold o. rewrite forward_assign, (last_pos_last names j nj Hj Hlastj).
    simpl. now rewrite Hdup. }
  repeat split.
  - intros Heq. apply (Hlasti j nj Hij Hj). now symmetry.
  - exact Hfi.
  - exact Hfj.
  - destruct (getKeyByValue_bound o (JS.index charSet i)) as (k & Hk & Hfk).
    + apply assign_nil_NoDup.
    + eapply forward_values, Hfi.
    + exists k. repeat split; [exact Hk| |exact Hfk].
      now rewrite <- getKeyByValue_last.
  - intros Hnd Hnamed Hlastc.
    rewrite getKeyByValue_last. unfold o.
    destruct (build_in_order (JS.index charSet) names Hnd Hnamed) as [-> ->].
    apply (last_key_combine _ _ _ j).
    + now rewrite !length_map, length_seq.
    + now rewrite list_lookup_fmap, Hj.
    + rewrite list_lookup_fmap, lookup_seq_lt;
        [simpl; now rewrite Hdup|now apply lookup_lt_Some in Hj].
    + intros l v Hlt. rewrite list_lookup_fmap.
      destruct (seq 0 (length names) !! l) as [l'|] eqn:Hl; [|discriminate].
      apply lookup_seq in Hl as [-> Hl]. simpl. intros [= <-].
      apply Hlastc. lia.
Qed.

Lemma C6_witness :
  exists e, createCharEnum ["A"; "B"] (Some "XX") = Return e /\
    forward e "A" = Some "X" /\ forward e "B" = Some "X" /\
    getKeyByValue e "X" = Some "B".
Proof.
  destruct (C6_duplicate_code_set ["A"; "B"] "XX" 0 1 "A" "B")
    as (e & He & _ & HA & HB & _ & Hlast);
    [discriminate|simpl; lia|lia|reflexivity|reflexivity| | |reflexivity|].
  - intros [|[|l]] nl Hl; try lia; [|discriminate]. now intros [= <-].
  - intros [|[|l]] nl Hl; try lia. discriminate.
  - exists e. split; [exact He|]. split; [exact HA|]. split; [exact HB|].
    apply Hlast.
    + apply (bool_decide_unpack _). vm_compute. exact I.
    + intros name Hin. simpl in Hin.
      repeat (destruct Hin as [<- | Hin]; [reflexivity|]). destruct Hin.
    + simpl. intros l Hl. lia.
Defined.

(* ===================================================================== *)
(** * The alphanumeric constructor                                        *)
(* ===================================================================== *)

(** C7: the alphanumeric constructor returns, for every name list, what the
    char constructor returns when called with the 62-character code-set made
    of the digits 0-9, then a-z, then A-Z; FIRST, SECOND and THIRD receive
    the codes "0", "1" and "2". *)
Theorem C7_alphanum_is_char_with_fixed_set :
  (forall names,
     createAlphaNumEnum names
     = createCharEnum names (Some spec_alphanum_charSet)) /\
  JS.length spec_alphanum_charSet = 62 /\
  exists e, createAlphaNumEnum ["FIRST"; "SECOND"; "THIRD"] = Return e /\
    forward e "FIRST" = Some "0" /\ forward e "SECOND" = Some "1" /\
    forward e "THIRD" = Some "2" /\
    keys e = ["FIRST"; "SECOND"; "THIRD"] /\ values e = ["0"; "1"; "2"].
Proof.
  split; [|split].
  - intros names. unfold createAlphaNumEnum.
    replace spec_alphanum_charSet
      with "0123456789abcdefghijklmnopqrstuvwxyzABCDEFGHIJKLMNOPQRSTUVWXYZ"
      by (vm_compute; reflexivity).
    reflexivity.
  - vm_compute. reflexivity.
  - eexists. split; [reflexivity|]. vm_compute. repeat split.
Qed.

(* ===================================================================== *)
(** * Case-insensitive membership                                         *)
(* ===================================================================== *)

(** C8: on every constructed instance [isKey] gives the same answer for a
    jsstring and for its uppercase form, because it uppercases the jsstring and
    then tests membership in the forward mapping; with ONE among the names,
    [isKey("one")] and [isKey("ONE")] are both true. *)
Theorem C8_isKey_case_insensitive :
  (forall names e s, createByteEnum names = Return e ->
     isKey e s = isKey e (JS.toUpperCase s) /\
     (isKey e s = true <-> exists c, forward e (JS.toUpperCase s) = Some c)) /\
  (forall names customCharSet e s,
     createCharEnum names customCharSet = Return e ->
     isKey e s = isKey e (JS.toUpperCase s) /\
     (isKey e s = true <-> exists c, forward e (JS.toUpperCase s) = Some c)) /\
  (exists e, createByteEnum ["ONE"; "TWO"; "THREE"] = Return e /\
     isKey e "one" = isKey e "ONE" /\ isKey e "ONE" = true /\
     isKey e "FOUR" = false).
Proof.
  assert (Hmem : forall (V : Type) `(Countable V) (e : Instance V) s,
    isKey e s = true <-> exists c, forward e (JS.toUpperCase s) = Some c).
  { intros V ? ? e s. rewrite isKey_forward. unfold JS.hasOwnProperty, forward.
    destruct (JS.get (JS.toUpperCase s) (enumObject e)) as [c|].
    - split; eauto.
    - split; [discriminate|]. intros (c & Hc). discriminate. }
  split; [|split].
  - intros names e s _. split; [apply isKey_upper|apply Hmem].
  - intros names customCharSet e s _. split; [apply isKey_upper|apply Hmem].
  - eexists. split; [reflexivity|]. vm_compute. repeat split.
Qed.

Lemma C8_witness :
  (exists e, createByteEnum ["ONE"; "TWO"; "THREE"] = Return e /\
     isKey e "one" = isKey e "ONE") /\
  (exists e, createCharEnum ["RED"; "GREEN"; "BLUE"] (Some "RGB") = Return e /\
     isKey e "red" = isKey e "RED").
Proof.
  destruct C8_isKey_case_insensitive as (Hbyte & Hchar & _). split.
  - eexists. split; [reflexivity|].
    exact (proj1 (Hbyte ["ONE"; "TWO"; "THREE"] _ "one" eq_refl)).
  - eexists. split; [reflexivity|].
    exact (proj1 (Hchar ["RED"; "GREEN"; "BLUE"] (Some "RGB") _ "red" eq_refl)).
Defined.

(* ===================================================================== *)
(** * The empty code-set                                                  *)
(* ===================================================================== *)

Lemma default_charSet_index (i : nat) :
  i < 256 -> JS.index default_charSet i = JS.fromCharCode i.
Proof.
  intros Hi.
  assert (Hall : forallb (fun i => JS.eqb (JS.index default_charSet i)
                                     (JS.fromCharCode i)) (seq 0 256) = true)
    by (vm_compute; reflexivity).
  rewrite forallb_forall in Hall. apply jsstring_eqb_eq, Hall, in_seq. lia.
Qed.

(** C9: an empty jsstring given as code-set is falsy, like an absent one: the
    default set of the 256 code points 0..255 is used, the call returns what
    the call without a code-set returns, any list of at most 256 names is
    constructed, and the capacity error, when it comes, names the limit 256
    and not 0. *)
Theorem C9_empty_code_set_is_default :
  effective_charSet (Some "") = default_charSet /\
  JS.length default_charSet = 256 /\
  (forall i, i < 256 -> JS.index default_charSet i = JS.fromCharCode i) /\
  (forall names,
     createCharEnum names (Some "") = createCharEnum names None) /\
  (forall names, length names <= 256 ->
     exists e, createCharEnum names (Some "") = Return e) /\
  (forall names, 256 < length names ->
     createCharEnum names (Some "")
     = Throw (CapacityExceeded "Enum has too many values (max: 256)")).
Proof.
  split; [reflexivity|]. split; [apply default_charSet_length|].
  split; [apply default_charSet_index|]. split; [reflexivity|]. split.
  - intros names Hlen. eexists. rewrite createCharEnum_eq. cbv zeta.
    change (effective_charSet (Some "")) with default_charSet.
    rewrite default_charSet_length.
    destruct (Nat.leb_spec (length names) 256); [reflexivity|lia].
  - intros names Hlen. rewrite createCharEnum_overflow.
    + change (effective_charSet (Some "")) with default_charSet.
      unfold char_overflow. rewrite default_charSet_length. reflexivity.
    + change (effective_charSet (Some "")) with default_charSet.
      rewrite default_charSet_length. exact Hlen.
Qed.

Lemma C9_witness :
  (exists e, createCharEnum (numbered_keys 256) (Some "") = Return e) /\
  (exists e, createCharEnum ["A"; "B"] (Some "") = Return e /\
     values e = [JS.fromCharCode 0; JS.fromCharCode 1]) /\
  createCharEnum (numbered_keys 257) (Some "")
  = Throw (CapacityExceeded "Enum has too many values (max: 256)").
Proof.
  destruct C9_empty_code_set_is_default as (_ & _ & _ & _ & Hok & Hover).
  split; [|split].
  - apply (Hok (numbered_keys 256)). vm_compute. lia.
  - destruct (Hok ["A"; "B"]) as (e & He); [simpl; lia|].
    exists e. split; [exact He|].
    apply createCharEnum_Return in He as [_ ->]. vm_compute. reflexivity.
  - apply (Hover (numbered_keys 257)). vm_compute. lia.
Defined.

(* ===================================================================== *)
(** * Enumeration order of an object                                      *)
(* ===================================================================== *)

Section EnumerationOrder.
Context {V : Type}.
Implicit Types (o : JS.object V).

Lemma insert_sorted_perm n (e : jsstring * V) l :
  JS.insert_sorted n e l ≡ₚ (n, e) :: l.
Proof.
  induction l as [|[m e'] r IH]; simpl; [reflexivity|].
  destruct (n <=? m)%N; [reflexivity|].
  rewrite IH. apply perm_swap.
Qed.

Lemma index_entries_perm o :
  map snd (JS.index_entries o)
  ≡ₚ List.filter (fun e => JS.is_array_index (fst e)) o.
Proof.
  unfold JS.is_array_index.
  induction o as [|[k v] r IH]; simpl; [reflexivity|].
  destruct (JS.array_index k) as [n|]; [|exact IH].
  rewrite insert_sorted_perm. simpl. now rewrite IH.
Qed.

Lemma filter_split_perm {A : Type} (p : A -> bool) (l : list A) :
  List.filter p l ++ List.filter (fun x => negb (p x)) l ≡ₚ l.
Proof.
  induction l as [|x l IH]; simpl; [reflexivity|].
  destruct (p x); simpl.
  - now rewrite IH.
  - rewrite <- Permutation_middle. now rewrite IH.
Qed.

(** [Object.entries] reorders the properties, it neither drops nor repeats
    one. *)
Lemma entries_perm o : JS.entries o ≡ₚ o.
Proof.
  unfold JS.entries, JS.named_entries.
  rewrite index_entries_perm. apply filter_split_perm.
Qed.

Lemma insert_sorted_index n (e : jsstring * V) l :
  Forall (fun p => JS.array_index (fst (snd p)) = Some (fst p)) l ->
  JS.array_index (fst e) = Some n ->
  Forall (fun p => JS.array_index (fst (snd p)) = Some (fst p))
    (JS.insert_sorted n e l).
Proof.
  intros Hl He. rewrite insert_sorted_perm. now constructor.
Qed.

Lemma index_entries_index o :
  Forall (fun p => JS.array_index (fst (snd p)) = Some (fst p))
    (JS.index_entries o).
Proof.
  induction o as [|[k v] r IH]; simpl; [constructor|].
  destruct (JS.array_index k) as [n|] eqn:Hk; [|exact IH].
  now apply insert_sorted_index.
Qed.

Lemma insert_sorted_sorted n (e : jsstring * V) l :
  StronglySorted (fun a b => (fst a <= fst b)%N) l ->
  StronglySorted (fun a b => (fst a <= fst b)%N) (JS.insert_sorted n e l).
Proof.
  induction 1 as [|[m e'] r Hs IH Hall]; simpl.
  - repeat constructor.
  - destruct (N.leb_spec n m) as [Hle|Hgt].
    + constructor; [now constructor|].
      constructor; [exact Hle|].
      eapply Forall_impl; [exact Hall|]. simpl. intros a Ha. lia.
    + constructor; [exact IH|].
      rewrite insert_sorted_perm. constructor; [simpl; lia|exact Hall].
Qed.

Lemma index_entries_sorted o :
  StronglySorted (fun a b => (fst a <= fst b)%N) (JS.index_entries o).
Proof.
  induction o as [|[k v] r IH]; simpl; [constructor|].
  destruct (JS.array_index k); [now apply insert_sorted_sorted|exact IH].
Qed.

(** The array-index keys of the enumeration, in ascending numeric order. *)
Lemma index_keys_sorted o :
  StronglySorted key_index_le (map fst (map snd (JS.index_entries o))).
Proof.
  pose proof (index_entries_sorted o) as Hs.
  pose proof (index_entries_index o) as Hi.
  induction Hs as [|[m [k v]] r Hs IH Hall]; simpl; [constructor|].
  inversion Hi as [|? ? Hm Hr]; subst. simpl in Hm.
  constructor; [now apply IH|].
  rewrite Forall_forall in Hall, Hr. apply Forall_forall.
  intros k' Hk'. apply list_elem_of_In in Hk'.
  rewrite map_map in Hk'. apply in_map_iff in Hk'.
  destruct Hk' as ([m' [k0 v0]] & <- & Hin). apply list_elem_of_In in Hin.
  specialize (Hall _ Hin). specialize (Hr _ Hin). simpl in *.
  unfold key_index_le. now rewrite Hm, Hr.
Qed.

End EnumerationOrder.

(* ===================================================================== *)
(** * The keys of a constructed object                                    *)
(* ===================================================================== *)

Section ObjectKeys.
Context {V : Type}.
Implicit Types (o acc : JS.object V) (code : nat -> V).

Lemma filter_filter_bool {A : Type} (p q : A -> bool) (l : list A) :
  List.filter p (List.filter q l) = List.filter (fun y => q y && p y) l.
Proof.
  induction l as [|x l IH]; simpl; [reflexivity|].
  destruct (q x); simpl; [destruct (p x)|]; now rewrite IH.
Qed.

Lemma filter_map_fst {B : Type} (p : jsstring -> bool) (l : list (jsstring * B)) :
  map fst (List.filter (fun e => p (fst e)) l) = List.filter p (map fst l).
Proof.
  induction l as [|[k v] l IH]; simpl; [reflexivity|].
  destruct (p k); simpl; now rewrite IH.
Qed.

Lemma put_keys k v o :
  map fst (JS.put k v o) =
  if existsb (JS.eqb k) (map fst o) then map fst o else map fst o ++ [k].
Proof.
  induction o as [|[k0 v0] r IH]; simpl; [reflexivity|].
  destruct (JS.eqb k k0); simpl; [reflexivity|].
  rewrite IH. now destruct (existsb (JS.eqb k) (map fst r)).
Qed.

Lemma first_occurrences_In (l : list jsstring) x :
  In x (first_occurrences l) <-> In x l.
Proof.
  induction l as [|y l IH]; simpl; [tauto|].
  rewrite filter_In, IH.
  destruct (jsstring_eqb_spec x y) as [->|Hne]; simpl; intuition congruence.
Qed.

(** The properties are created in the order in which the uppercased names
    first occur. *)
Lemma assign_keys code keys : forall index acc,
  map fst (assign code keys index acc) =
  map fst acc ++
  List.filter (fun y => negb (existsb (JS.eqb y) (map fst acc)))
    (first_occurrences (map JS.toUpperCase keys)).
Proof.
  induction keys as [|key rest IH]; intros index acc; simpl.
  - now rewrite app_nil_r.
  - rewrite IH. unfold JS.set.
    destruct (jsstring_eqb_spec (JS.toUpperCase key) "__proto__") as [He|_];
      [now apply toUpperCase_not_proto in He|].
    rewrite put_keys.
    destruct (existsb (JS.eqb (JS.toUpperCase key)) (map fst acc)) eqn:Hm;
      simpl; rewrite filter_filter_bool.
    + f_equal. apply filter_ext_in.
      intros y _. destruct (jsstring_eqb_spec y (JS.toUpperCase key)) as [->|_];
        simpl; [now rewrite Hm|reflexivity].
    + rewrite <- app_assoc. simpl. do 2 f_equal. apply filter_ext.
      intros y. rewrite existsb_app. simpl.
      rewrite orb_false_r, negb_orb. apply andb_comm.
Qed.

Lemma assign_nil_keys code names :
  map fst (assign code names 0 [])
  = first_occurrences (map JS.toUpperCase names).
Proof.
  rewrite assign_keys. simpl. apply forallb_filter_id, forallb_forall.
  reflexivity.
Qed.

End ObjectKeys.

(* ===================================================================== *)
(** * Invariants of a constructed instance                                *)
(* ===================================================================== *)

Section InstanceInvariants.
Context {V : Type} `{Countable V}.
Implicit Types (o : JS.object V) (code : nat -> V) (names : list jsstring).

Lemma keys_perm o : keys (build o) ≡ₚ map fst o.
Proof. rewrite keys_build. apply Permutation_map, entries_perm. Qed.

Lemma values_perm o : values (build o) ≡ₚ map snd o.
Proof. rewrite values_build. apply Permutation_map, entries_perm. Qed.

Lemma keys_values_length (e : Instance V) o :
  e = build o -> length (keys e) = length (values e).
Proof. intros ->. now rewrite keys_build, values_build, !length_map. Qed.

Lemma keys_first_occurrences code names :
  keys (build (assign code names 0 []))
  ≡ₚ first_occurrences (map JS.toUpperCase names).
Proof. now rewrite keys_perm, assign_nil_keys. Qed.

Lemma first_occurrences_NoDup (l : list jsstring) :
  NoDup (first_occurrences (map JS.toUpperCase l)).
Proof.
  rewrite <- (assign_nil_keys (fun _ : nat => tt)). apply assign_nil_NoDup.
Qed.

Lemma first_occurrences_length (l : list jsstring) :
  length (first_occurrences l) <= length l.
Proof.
  induction l as [|x l IH]; simpl; [lia|].
  pose proof (filter_length_le (fun y => negb (JS.eqb y x))
                (first_occurrences l)). lia.
Qed.

Lemma keys_NoDup code names : NoDup (keys (build (assign code names 0 []))).
Proof. rewrite keys_first_occurrences. apply first_occurrences_NoDup. Qed.

Lemma keys_In code names k :
  In k (keys (build (assign code names 0 []))) <->
  exists name, In name names /\ JS.toUpperCase name = k.
Proof.
  rewrite <- list_elem_of_In, keys_first_occurrences, list_elem_of_In.
  rewrite first_occurrences_In, in_map_iff.
  split; intros (name & H1 & H2); exists name; tauto.
Qed.

Lemma keys_length code names :
  length (keys (build (assign code names 0 [])))
  = length (remove_dups (map JS.toUpperCase names)).
Proof.
  apply Permutation_length. rewrite keys_first_occurrences.
  apply NoDup_Permutation.
  - apply first_occurrences_NoDup.
  - apply NoDup_remove_dups.
  - intros x. rewrite elem_of_remove_dups, !list_elem_of_In.
    apply first_occurrences_In.
Qed.

Lemma keys_invariant code names :
  let e := build (assign code names 0 []) in
  NoDup (keys e) /\
  (forall k, In k (keys e) <->
     exists name, In name names /\ JS.toUpperCase name = k) /\
  (forall k, In k (keys e) -> JS.toUpperCase k = k) /\
  length (keys e) = length (remove_dups (map JS.toUpperCase names)) /\
  length (keys e) <= length names.
Proof.
  simpl. split; [apply keys_NoDup|]. split; [apply keys_In|].
  split; [|split; [apply keys_length|]].
  - intros k Hk. apply keys_In in Hk as (name & _ & <-).
    apply toUpperCase_idem.
  - rewrite (Permutation_length (keys_first_occurrences code names)).
    etransitivity; [apply first_occurrences_length|]. now rewrite length_map.
Qed.

(** The pairs [(keys()[i], values()[i])] are the bindings of the forward
    mapping. *)
Lemma keys_values_bindings o :
  NoDup (map fst o) ->
  let e := build o in
  length (keys e) = length (values e) /\
  (forall i k c, keys e !! i = Some k -> values e !! i = Some c ->
     forward e k = Some c) /\
  (forall k c, forward e k = Some c ->
     exists i, keys e !! i = Some k /\ values e !! i = Some c) /\
  (forall k, In k (keys e) -> exists c, forward e k = Some c).
Proof.
  intros Hnd. simpl. split; [now apply (keys_values_length _ o)|].
  split; [intros i k c; now apply entry_binding|]. split.
  - intros k c Hf. rewrite forward_build in Hf.
    apply get_In, entries_In, list_elem_of_In, list_elem_of_lookup in Hf.
    destruct Hf as (i & Hi). exists i.
    now rewrite keys_build, values_build, !list_lookup_fmap, Hi.
  - intros k Hk. rewrite <- list_elem_of_In, keys_perm, list_elem_of_In in Hk.
    rewrite forward_build.
    destruct (JS.get k o) as [c|] eqn:Hg; [eauto|].
    now apply get_None in Hg.
Qed.

Lemma enumObject_build o : enumObject (build o) = o.
Proof. now rewrite build_eq. Qed.

Lemma isKey_keys o (s : jsstring) :
  isKey (build o) s = true <-> In (JS.toUpperCase s) (keys (build o)).
Proof.
  rewrite isKey_forward, enumObject_build. unfold JS.hasOwnProperty.
  rewrite <- list_elem_of_In, keys_perm, list_elem_of_In.
  destruct (JS.get (JS.toUpperCase s) o) as [c|] eqn:Hg.
  - split; [intros _|reflexivity].
    apply get_In in Hg. apply (in_map fst) in Hg. exact Hg.
  - split; [discriminate|]. intros Hin. now apply get_None in Hg.
Qed.

Lemma isKey_characterisation code names :
  let e := build (assign code names 0 []) in
  (forall s, isKey e s = true <-> In (JS.toUpperCase s) (keys e)) /\
  (forall s, isKey e s = true <->
     exists name, In name names /\ JS.toUpperCase name = JS.toUpperCase s) /\
  (forall name, In name names -> isKey e name = true) /\
  (forall c k, getKeyByValue e c = Some k -> isKey e k = true).
Proof.
  simpl. split; [intros s; apply isKey_keys|].
  assert (Hiff : forall s, isKey (build (assign code names 0 [])) s = true <->
     exists name, In name names /\ JS.toUpperCase name = JS.toUpperCase s).
  { intros s. rewrite isKey_keys. apply keys_In. }
  split; [exact Hiff|]. split.
  - intros name Hin. apply Hiff. eauto.
  - intros c k Hk. rewrite getKeyByValue_build in Hk.
    apply last_key_In in Hk. apply (in_map fst) in Hk. simpl in Hk.
    rewrite <- keys_build in Hk. apply keys_In in Hk as (name & Hname & <-).
    apply Hiff. exists name. now rewrite toUpperCase_idem.
Qed.

(** Array-index names first, in ascending numeric order; then the other
    names where they first occur in the input. *)
Lemma keys_order code names :
  exists idx,
    keys (build (assign code names 0 []))
    = idx ++ List.filter (fun k => negb (JS.is_array_index k))
               (first_occurrences (map JS.toUpperCase names)) /\
    idx ≡ₚ List.filter JS.is_array_index
             (first_occurrences (map JS.toUpperCase names)) /\
    StronglySorted key_index_le idx.
Proof.
  set (o := assign code names 0 []).
  exists (map fst (map snd (JS.index_entries o))).
  split; [|split].
  - rewrite keys_build. unfold JS.entries, JS.named_entries.
    rewrite map_app. f_equal.
    rewrite (filter_map_fst (fun k => negb (JS.is_array_index k))).
    unfold o. now rewrite assign_nil_keys.
  - rewrite index_entries_perm.
    rewrite (filter_map_fst JS.is_array_index).
    unfold o. now rewrite assign_nil_keys.
  - apply index_keys_sorted.
Qed.

End InstanceInvariants.

(** X1: in every instance either constructor returns, [keys()] has no
    repeated entry, its entries are exactly the uppercase forms of the input
    names, each is left unchanged by [toUpperCase], and their number is the
    number of distinct uppercased input names (at most the input length). *)
Theorem X1_keys_invariant :
  (forall names e, createByteEnum names = Return e ->
     NoDup (keys e) /\
     (forall k, In k (keys e) <->
        exists name, In name names /\ JS.toUpperCase name = k) /\
     (forall k, In k (keys e) -> JS.toUpperCase k = k) /\
     length (keys e) = length (remove_dups (map JS.toUpperCase names)) /\
     length (keys e) <= length names) /\
  (forall names customCharSet e,
     createCharEnum names customCharSet = Return e ->
     NoDup (keys e) /\
     (forall k, In k (keys e) <->
        exists name, In name names /\ JS.toUpperCase name = k) /\
     (forall k, In k (keys e) -> JS.toUpperCase k = k) /\
     length (keys e) = length (remove_dups (map JS.toUpperCase names)) /\
     length (keys e) <= length names).
Proof.
  split.
  - intros names e He. apply createByteEnum_Return in He as [_ ->].
    apply keys_invariant.
  - intros names customCharSet e He.
    apply createCharEnum_Return in He as [_ ->]. apply keys_invariant.
Qed.

Lemma X1_witness :
  (exists e, createByteEnum ["b"; "a"; "B"] = Return e /\
     NoDup (keys e) /\ length (keys e) = 2 /\
     forall k, In k (keys e) -> JS.toUpperCase k = k) /\
  (exists e, createCharEnum ["b"; "a"; "B"] (Some "xyz") = Return e /\
     NoDup (keys e) /\ length (keys e) = 2 /\
     forall k, In k (keys e) -> JS.toUpperCase k = k).
Proof.
  destruct X1_keys_invariant as [Hbyte Hchar]. split.
  - eexists. split; [reflexivity|].
    destruct (Hbyte ["b"; "a"; "B"] _ eq_refl) as (Hnd & _ & Hup & Hlen & _).
    split; [exact Hnd|]. split; [exact Hlen|exact Hup].
  - eexists. split; [reflexivity|].
    destruct (Hchar ["b"; "a"; "B"] (Some "xyz") _ eq_refl)
      as (Hnd & _ & Hup & Hlen & _).
    split; [exact Hnd|]. split; [exact Hlen|exact Hup].
Defined.

(** X2: in every constructed instance [keys()] and [values()] have the same
    length, [values()[i]] is the code the forward mapping gives to
    [keys()[i]], every binding of the forward mapping sits at some index of
    the two arrays, and every key has a code. *)
Theorem X2_keys_values_aligned :
  (forall names e, createByteEnum names = Return e ->
     length (keys e) = length (values e) /\
     (forall i k c, keys e !! i = Some k -> values e !! i = Some c ->
        forward e k = Some c) /\
     (forall k c, forward e k = Some c ->
        exists i, keys e !! i = Some k /\ values e !! i = Some c) /\
     (forall k, In k (keys e) -> exists c, forward e k = Some c)) /\
  (forall names customCharSet e,
     createCharEnum names customCharSet = Return e ->
     length (keys e) = length (values e) /\
     (forall i k c, keys e !! i = Some k -> values e !! i = Some c ->
        forward e k = Some c) /\
     (forall k c, forward e k = Some c ->
        exists i, keys e !! i = Some k /\ values e !! i = Some c) /\
     (forall k, In k (keys e) -> exists c, forward e k = Some c)).
Proof.
  split.
  - intros names e He. apply createByteEnum_Return in He as [_ ->].
    apply keys_values_bindings, assign_nil_NoDup.
  - intros names customCharSet e He.
    apply createCharEnum_Return in He as [_ ->].
    apply keys_values_bindings, assign_nil_NoDup.
Qed.

Lemma X2_witness :
  (exists e, createByteEnum ["b"; "7"; "B"] = Return e /\
     length (keys e) = length (values e) /\
     exists i, keys e !! i = Some "B" /\ values e !! i = Some 2%Z) /\
  (exists e, createCharEnum ["b"; "7"; "B"] (Some "xyz") = Return e /\
     length (keys e) = length (values e) /\
     exists i, keys e !! i = Some "B" /\ values e !! i = Some "z").
Proof.
  destruct X2_keys_values_aligned as [Hbyte Hchar]. split.
  - eexists. split; [reflexivity|].
    destruct (Hbyte ["b"; "7"; "B"] _ eq_refl) as (Hlen & _ & Hall & _).
    split; [exact Hlen|]. apply Hall. reflexivity.
  - eexists. split; [reflexivity|].
    destruct (Hchar ["b"; "7"; "B"] (Some "xyz") _ eq_refl)
      as (Hlen & _ & Hall & _).
    split; [exact Hlen|]. apply Hall. reflexivity.
Defined.

(** X3: on every constructed instance [isKey(s)] is true exactly when the
    uppercase form of [s] is in [keys()], that is, when [s] equals some
    input name up to case; every input name is a key, and so is every name
    [getKeyByValue] returns. *)
Theorem X3_isKey_characterisation :
  (forall names e, createByteEnum names = Return e ->
     (forall s, isKey e s = true <-> In (JS.toUpperCase s) (keys e)) /\
     (forall s, isKey e s = true <->
        exists name, In name names /\
          JS.toUpperCase name = JS.toUpperCase s) /\
     (forall name, In name names -> isKey e name = true) /\
     (forall c k, getKeyByValue e c = Some k -> isKey e k = true)) /\
  (forall names customCharSet e,
     createCharEnum names customCharSet = Return e ->
     (forall s, isKey e s = true <-> In (JS.toUpperCase s) (keys e)) /\
     (forall s, isKey e s = true <->
        exists name, In name names /\
          JS.toUpperCase name = JS.toUpperCase s) /\
     (forall name, In name names -> isKey e name = true) /\
     (forall c k, getKeyByValue e c = Some k -> isKey e k = true)).
Proof.
  split.
  - intros names e He. apply createByteEnum_Return in He as [_ ->].
    apply isKey_characterisation.
  - intros names customCharSet e He.
    apply createCharEnum_Return in He as [_ ->]. apply isKey_characterisation.
Qed.

Lemma X3_witness :
  (exists e, createByteEnum ["One"; "two"] = Return e /\
     isKey e "One" = true /\ isKey e "TWO" = true /\
     (isKey e "three" = true <-> In "THREE" (keys e))) /\
  (exists e, createCharEnum ["One"; "two"] None = Return e /\
     isKey e "One" = true /\ isKey e "tWo" = true).
Proof.
  destruct X3_isKey_characterisation as [Hbyte Hchar]. split.
  - eexists. split; [reflexivity|].
    destruct (Hbyte ["One"; "two"] _ eq_refl) as (Hkeys & Hiff & Hin & _).
    split; [apply Hin; simpl; tauto|].
    split; [apply Hiff; exists "two"; simpl; tauto|apply (Hkeys "three")].
  - eexists. split; [reflexivity|].
    destruct (Hchar ["One"; "two"] None _ eq_refl) as (_ & Hiff & Hin & _).
    split; [apply Hin; simpl; tauto|].
    apply Hiff. exists "two". simpl. tauto.
Defined.

(** X4: in every constructed instance [keys()] lists first the uppercased
    names that are array indices, in ascending numeric order, and then the
    other uppercased names in the order in which they first occur in the
    input. *)
Theorem X4_keys_enumeration_order :
  (forall names e, createByteEnum names = Return e ->
     exists idx,
       keys e = idx ++ List.filter (fun k => negb (JS.is_array_index k))
                        (first_occurrences (map JS.toUpperCase names)) /\
       idx ≡ₚ List.filter JS.is_array_index
                (first_occurrences (map JS.toUpperCase names)) /\
       StronglySorted key_index_le idx) /\
  (forall names customCharSet e,
     createCharEnum names customCharSet = Return e ->
     exists idx,
       keys e = idx ++ List.filter (fun k => negb (JS.is_array_index k))
                        (first_occurrences (map JS.toUpperCase names)) /\
       idx ≡ₚ List.filter JS.is_array_index
                (first_occurrences (map JS.toUpperCase names)) /\
       StronglySorted key_index_le idx).
Proof.
  split.
  - intros names e He. apply createByteEnum_Return in He as [_ ->].
    apply keys_order.
  - intros names customCharSet e He.
    apply createCharEnum_Return in He as [_ ->]. apply keys_order.
Qed.

Lemma X4_witness :
  exists e idx, createByteEnum ["b"; "10"; "a"; "B"; "2"; "07"] = Return e /\
    keys e = idx ++ ["B"; "A"; "07"] /\
    idx ≡ₚ ["10"; "2"] /\ StronglySorted key_index_le idx.
Proof.
  destruct (proj1 X4_keys_enumeration_order
              ["b"; "10"; "a"; "B"; "2"; "07"] _ eq_refl)
    as (idx & Hkeys & Hperm & Hsorted).
  eexists. exists idx. split; [reflexivity|].
  split; [exact Hkeys|]. split; [exact Hperm|exact Hsorted].
Defined.

(* ===================================================================== *)
(** * The codes of a constructed instance                                 *)
(* ===================================================================== *)

Section InstanceCodes.
Context {V : Type} `{Countable V}.
Implicit Types (o : JS.object V) (code : nat -> V) (names : list jsstring).

Lemma snd_NoDup o :
  NoDup (map fst o) ->
  (forall k1 k2 c, JS.get k1 o = Some c -> JS.get k2 o = Some c -> k1 = k2) ->
  NoDup (map snd o).
Proof.
  intros Hnd Hinj. apply NoDup_alt. intros i j c Hi Hj.
  rewrite list_lookup_fmap in Hi, Hj.
  apply fmap_Some in Hi as ([k1 c1] & Hoi & Hc1).
  apply fmap_Some in Hj as ([k2 c2] & Hoj & Hc2).
  simpl in Hc1, Hc2. subst c1 c2.
  assert (Hg1 : JS.get k1 o = Some c).
  { apply In_get; [exact Hnd|].
    apply list_elem_of_In. eapply list_elem_of_lookup_2, Hoi. }
  assert (Hg2 : JS.get k2 o = Some c).
  { apply In_get; [exact Hnd|].
    apply list_elem_of_In. eapply list_elem_of_lookup_2, Hoj. }
  assert (Hk : k1 = k2) by exact (Hinj _ _ _ Hg1 Hg2). subst k2.
  eapply NoDup_lookup; [exact Hnd| |]; rewrite list_lookup_fmap.
  - now rewrite Hoi.
  - now rewrite Hoj.
Qed.

(** The codes of the instance are the codes of the positions whose name does
    not occur again, up to case, later in the input. *)
Lemma isValue_last_occurrence code names (c : V) :
  isValue (build (assign code names 0 [])) c = true <->
  exists j name,
    c = code j /\ names !! j = Some name /\
    forall l nl, j < l -> names !! l = Some nl ->
      JS.toUpperCase nl <> JS.toUpperCase name.
Proof.
  rewrite isValue_build. split.
  - intros Hin. apply values_forward in Hin as (k & Hk);
      [|apply assign_nil_NoDup].
    rewrite forward_assign in Hk.
    destruct (last_pos k names 0) as [j|] eqn:Hl; [|discriminate].
    injection Hk as <-.
    destruct (last_pos_Some _ _ _ _ Hl) as (name & Hname & _ & Hup & Hlast).
    rewrite Nat.sub_0_r in Hname. exists j, name.
    split; [reflexivity|]. split; [exact Hname|].
    intros l nl Hlt Hnl. rewrite Hup. apply (Hlast l nl Hlt).
    now rewrite Nat.sub_0_r.
  - intros (j & name & -> & Hname & Hlast).
    apply (forward_values _ (JS.toUpperCase name)).
    now rewrite forward_assign, (last_pos_last names j name Hname Hlast).
Qed.

Lemma values_position code names (c : V) :
  In c (values (build (assign code names 0 []))) ->
  exists j, j < length names /\ c = code j.
Proof.
  intros Hin. apply isValue_build, isValue_last_occurrence in Hin.
  destruct Hin as (j & name & -> & Hname & _).
  exists j. split; [now apply lookup_lt_Some in Hname|reflexivity].
Qed.

Lemma values_NoDup code names :
  (forall i j, i < length names -> j < length names ->
     code i = code j -> i = j) ->
  NoDup (values (build (assign code names 0 []))).
Proof.
  intros Hinj. rewrite values_perm.
  apply snd_NoDup; [apply assign_nil_NoDup|now apply assign_injective].
Qed.

End InstanceCodes.

(* ===================================================================== *)
(** * Reverse lookup: which codes the instance knows                      *)
(* ===================================================================== *)

Lemma isValue_forward {V : Type} `{Countable V} (o : JS.object V) (c : V) :
  NoDup (map fst o) ->
  isValue (build o) c = true <-> exists k, forward (build o) k = Some c.
Proof.
  intros Hnd. rewrite isValue_build. split.
  - now apply values_forward.
  - intros (k & Hk). now apply (forward_values o k).
Qed.

(** C3, as stated, fails twice.  The byte constructor produces the code 0
    for the first of the names "a" and "A" (the callback writes it under the
    key A) and overwrites it with 1, so [isValue(0)] is false although 0 was
    produced at construction.  Over the code-set "XX" the names A and B both
    produce the code "X"; A is bound to it and [getKeyByValue("X")] is not
    A. *)
Lemma C3_counterexample :
  (exists e, createByteEnum ["a"; "A"] = Return e /\
     byte_callback [] "a" 0 = Return [("A", 0%Z)] /\
     isValue e 0%Z = false) /\
  (exists e, createCharEnum ["A"; "B"] (Some "XX") = Return e /\
     forward e "A" = Some "X" /\ isValue e "X" = true /\
     getKeyByValue e "X" <> Some "A").
Proof.
  split.
  - eexists. split; [reflexivity|]. split; reflexivity.
  - eexists. split; [reflexivity|]. split; [reflexivity|].
    split; [reflexivity|]. vm_compute. discriminate.
Qed.

(** C3, amended: for every constructed instance, [isValue(code)] is true
    exactly for the codes produced at construction that no later name
    overwrote: the code of position [j] counts when the name at [j] does not
    occur again, up to case, later in the input; these are the codes the
    forward mapping binds to a name.  For every code bound to a name,
    [getKeyByValue(code)] returns a normalized name bound to that code, which
    is the name that produced it whenever no two names were given the same
    code: always for the byte constructor, and for the char constructor when
    the code-set characters in use are pairwise distinct.  For every other
    code [isValue(code)] is false, [getKeyByValue(code)] is absent and
    [getDisplayName(code)] is the empty string. *)
Theorem C3_reverse_lookup :
  (forall names e, createByteEnum names = Return e ->
     (forall c, isValue e c = true <->
        exists j name,
          c = Z.of_nat j /\ names !! j = Some name /\
          forall l nl, j < l -> names !! l = Some nl ->
            JS.toUpperCase nl <> JS.toUpperCase name) /\
     (forall c, isValue e c = true <-> exists k, forward e k = Some c) /\
     (forall k c, forward e k = Some c -> getKeyByValue e c = Some k) /\
     (forall c, isValue e c = false ->
        getKeyByValue e c = None /\ getDisplayName e c = "")) /\
  (forall names customCharSet e,
     createCharEnum names customCharSet = Return e ->
     (forall c, isValue e c = true <->
        exists j name,
          c = JS.index (effective_charSet customCharSet) j /\
          names !! j = Some name /\
          forall l nl, j < l -> names !! l = Some nl ->
            JS.toUpperCase nl <> JS.toUpperCase name) /\
     (forall c, isValue e c = true <-> exists k, forward e k = Some c) /\
     (forall k c, forward e k = Some c ->
        exists k', getKeyByValue e c = Some k' /\ forward e k' = Some c) /\
     ((forall i j, i < length names -> j < length names ->
         JS.index (effective_charSet customCharSet) i
         = JS.index (effective_charSet customCharSet) j -> i = j) ->
      forall k c, forward e k = Some c -> getKeyByValue e c = Some k) /\
     (forall c, isValue e c = false ->
        getKeyByValue e c = None /\ getDisplayName e c = "")).
Proof.
  split.
  - intros names e He. apply createByteEnum_Return in He as [_ ->].
    split; [intros c; apply isValue_last_occurrence|].
    split; [intros c; apply isValue_forward, assign_nil_NoDup|].
    split.
    + intros k c. apply getKeyByValue_forward; [apply assign_nil_NoDup|].
      apply assign_injective. intros i j _ _. apply Nat2Z.inj.
    + intros c Hv. destruct (unknown_code _ c Hv) as (Hk & Hd & _). auto.
  - intros names customCharSet e He.
    apply createCharEnum_Return in He as [_ ->].
    split; [intros c; apply isValue_last_occurrence|].
    split; [intros c; apply isValue_forward, assign_nil_NoDup|].
    split; [|split].
    + intros k c Hf. apply getKeyByValue_bound; [apply assign_nil_NoDup|].
      now apply (forward_values _ k).
    + intros Hinj k c. apply getKeyByValue_forward; [apply assign_nil_NoDup|].
      now apply assign_injective.
    + intros c Hv. destruct (unknown_code _ c Hv) as (Hk & Hd & _). auto.
Qed.

Lemma C3_witness :
  (exists e, createByteEnum ["ONE"; "TWO"; "THREE"] = Return e /\
     isValue e 1%Z = true /\ getKeyByValue e 1%Z = Some "TWO" /\
     getKeyByValue e 5%Z = None /\ getDisplayName e 5%Z = "") /\
  (exists e, createCharEnum ["RED"; "GREEN"; "BLUE"] (Some "RGB") = Return e /\
     isValue e "G" = true /\ getKeyByValue e "G" = Some "GREEN" /\
     getKeyByValue e "X" = None /\ getDisplayName e "X" = "").
Proof.
  destruct C3_reverse_lookup as [Hbyte Hchar]. split.
  - eexists. split; [reflexivity|].
    destruct (Hbyte ["ONE"; "TWO"; "THREE"] _ eq_refl) as (_ & Hv & Hk & Hno).
    split; [apply Hv; exists "TWO"; reflexivity|].
    split; [apply Hk; reflexivity|].
    apply (Hno 5%Z). reflexivity.
  - eexists. split; [reflexivity|].
    destruct (Hchar ["RED"; "GREEN"; "BLUE"] (Some "RGB") _ eq_refl)
      as (_ & Hv & _ & Hk & Hno).
    split; [apply Hv; exists "GREEN"; reflexivity|].
    split; [apply Hk; [|reflexivity]|].
    + intros i j Hi Hj. simpl in Hi, Hj.
      destruct i as [|[|[|i]]]; destruct j as [|[|[|j]]];
        try lia; vm_compute; intros; congruence.
    + apply (Hno "X"). reflexivity.
Defined.

(** X5: the codes of a byte instance are pairwise distinct integers between
    0 and 255, each below the number of input names; [isValue] is false on
    every negative integer and on every integer from the input length on. *)
Theorem X5_byte_codes_are_distinct_bytes :
  forall names e, createByteEnum names = Return e ->
    NoDup (values e) /\
    (forall c, In c (values e) ->
       (0 <= c <= 255)%Z /\ (c < Z.of_nat (length names))%Z) /\
    (forall c, (c < 0)%Z \/ (Z.of_nat (length names) <= c)%Z ->
       isValue e c = false).
Proof.
  intros names e He. apply createByteEnum_Return in He as [Hlen ->].
  assert (Hrange : forall c,
    In c (values (build (assign Z.of_nat names 0 []))) ->
    (0 <= c <= 255)%Z /\ (c < Z.of_nat (length names))%Z).
  { intros c Hin. apply values_position in Hin as (j & Hj & ->). lia. }
  split; [|split; [exact Hrange|]].
  - apply values_NoDup. intros i j _ _. apply Nat2Z.inj.
  - intros c Hc. destruct (isValue _ c) eqn:Hv; [|reflexivity].
    apply isValue_build, Hrange in Hv. lia.
Qed.

Lemma X5_witness :
  exists e, createByteEnum ["a"; "b"; "A"] = Return e /\
    NoDup (values e) /\ isValue e (-1)%Z = false /\ isValue e 3%Z = false /\
    forall c, In c (values e) -> (0 <= c <= 255)%Z.
Proof.
  eexists. split; [reflexivity|].
  destruct (X5_byte_codes_are_distinct_bytes ["a"; "b"; "A"] _ eq_refl)
    as (Hnd & Hrange & Hout).
  split; [exact Hnd|]. split; [apply Hout; lia|].
  split; [apply Hout; simpl; lia|]. intros c Hc. now apply Hrange.
Defined.

(** X6: an integer is a code of a byte instance exactly when it is the
    position of an input name that does not occur again, up to case, later
    in the input; [getKeyByValue] of that position is the uppercase form of
    the name at it. *)
Theorem X6_byte_codes_are_last_occurrences :
  forall names e, createByteEnum names = Return e ->
    (forall c, isValue e c = true <->
       exists j name,
         c = Z.of_nat j /\ names !! j = Some name /\
         forall l nl, j < l -> names !! l = Some nl ->
           JS.toUpperCase nl <> JS.toUpperCase name) /\
    (forall j name, names !! j = Some name ->
       (forall l nl, j < l -> names !! l = Some nl ->
          JS.toUpperCase nl <> JS.toUpperCase name) ->
       getKeyByValue e (Z.of_nat j) = Some (JS.toUpperCase name)).
Proof.
  intros names e He. apply createByteEnum_Return in He as [_ ->].
  split; [intros c; apply isValue_last_occurrence|].
  intros j name Hname Hlast.
  apply getKeyByValue_forward; [apply assign_nil_NoDup| |].
  - apply assign_injective. intros i i' _ _. apply Nat2Z.inj.
  - now rewrite forward_assign, (last_pos_last names j name Hname Hlast).
Qed.

Lemma X6_witness :
  exists e, createByteEnum ["a"; "b"; "A"] = Return e /\
    isValue e 2%Z = true /\ getKeyByValue e 2%Z = Some "A" /\
    getKeyByValue e 1%Z = Some "B".
Proof.
  eexists. split; [reflexivity|].
  destruct (X6_byte_codes_are_last_occurrences ["a"; "b"; "A"] _ eq_refl)
    as (Hiff & Hkey).
  assert (Hlast2 : forall l nl, 2 < l -> ["a"; "b"; "A"] !! l = Some nl ->
            JS.toUpperCase nl <> JS.toUpperCase "A").
  { intros [|[|[|l]]] nl Hl; try lia. discriminate. }
  assert (Hlast1 : forall l nl, 1 < l -> ["a"; "b"; "A"] !! l = Some nl ->
            JS.toUpperCase nl <> JS.toUpperCase "b").
  { intros [|[|[|l]]] nl Hl; try lia; [|discriminate].
    intros [= <-]. discriminate. }
  split; [apply Hiff; exists 2, "A"; auto|].
  split; [exact (Hkey 2 "A" eq_refl Hlast2)|exact (Hkey 1 "b" eq_refl Hlast1)].
Defined.

(* ===================================================================== *)
(** * The char constructor: codes drawn from the code-set                 *)
(* ===================================================================== *)

Lemma index_length (s : jsstring) : forall i,
  i < JS.length s -> JS.length (JS.index s i) = 1.
Proof.
  unfold JS.index.
  induction s as [|a s IH]; intros i Hi; simpl in *; [lia|].
  destruct i as [|i]; [reflexivity|]. apply IH. lia.
Qed.

Lemma fromCharCode_inj (i j : nat) :
  i < 256 -> j < 256 -> JS.fromCharCode i = JS.fromCharCode j -> i = j.
Proof.
  unfold JS.fromCharCode. intros Hi Hj [= Heq].
  rewrite <- (nat_ascii_embedding i Hi), <- (nat_ascii_embedding j Hj).
  now rewrite Heq.
Qed.

Lemma effective_charSet_falsy (customCharSet : option jsstring) :
  falsy customCharSet = true -> effective_charSet customCharSet = default_charSet.
Proof. unfold effective_charSet. now intros ->. Qed.

(** X7: the char constructor returns an instance exactly when the name list
    is no longer than the code-set in use (the given one, or the default one
    for an absent or empty argument); in the instance every uppercased name
    is bound to the code-set character at the position of its last
    occurrence, which is its own position when the uppercased names are
    pairwise distinct, and a jsstring is a code of the instance exactly when
    it is the character at such a position. *)
Theorem X7_char_constructor_contract :
  forall names customCharSet,
    ((exists e, createCharEnum names customCharSet = Return e) <->
     length names <= JS.length (effective_charSet customCharSet)) /\
    (forall e, createCharEnum names customCharSet = Return e ->
       (forall i name, names !! i = Some name ->
          exists j name',
            i <= j < length names /\ names !! j = Some name' /\
            JS.toUpperCase name' = JS.toUpperCase name /\
            (forall l nl, j < l -> names !! l = Some nl ->
               JS.toUpperCase nl <> JS.toUpperCase name) /\
            forward e (JS.toUpperCase name)
            = Some (JS.index (effective_charSet customCharSet) j)) /\
       (NoDup (map JS.toUpperCase names) ->
        forall i name, names !! i = Some name ->
          forward e (JS.toUpperCase name)
          = Some (JS.index (effective_charSet customCharSet) i)) /\
       (forall c, isValue e c = true <->
          exists j name,
            c = JS.index (effective_charSet customCharSet) j /\
            names !! j = Some name /\
            forall l nl, j < l -> names !! l = Some nl ->
              JS.toUpperCase nl <> JS.toUpperCase name)).
Proof.
  intros names customCharSet. split.
  - split.
    + intros (e & He). now apply createCharEnum_Return in He as [Hlen _].
    + intros Hlen. eexists. rewrite createCharEnum_eq. cbv zeta.
      destruct (Nat.leb_spec (length names)
                  (JS.length (effective_charSet customCharSet)));
        [reflexivity|lia].
  - intros e He. apply createCharEnum_Return in He as [_ ->].
    split; [|split].
    + intros i name. apply forward_last_occurrence.
    + intros Hnd i name Hi.
      now rewrite forward_assign, (last_pos_NoDup names 0 i name Hnd Hi).
    + intros c. apply isValue_last_occurrence.
Qed.

Lemma X7_witness :
  exists e, createCharEnum ["red"; "Green"; "RED"] (Some "rgb") = Return e /\
    forward e "RED" = Some "b" /\ forward e "GREEN" = Some "g" /\
    isValue e "b" = true.
Proof.
  destruct (X7_char_constructor_contract ["red"; "Green"; "RED"] (Some "rgb"))
    as (Hret & Hinst).
  destruct (proj2 Hret) as (e & He); [simpl; lia|].
  exists e. split; [exact He|].
  destruct (Hinst e He) as (Hlast & _ & Hval).
  assert (Hno : forall l nl, 2 < l ->
            ["red"; "Green"; "RED"] !! l = Some nl ->
            JS.toUpperCase nl <> JS.toUpperCase "RED").
  { intros [|[|[|l]]] nl Hl; try lia. discriminate. }
  split; [|split].
  - destruct (Hlast 2 "RED" eq_refl) as (j & name' & Hj & _ & _ & _ & Hf).
    simpl in Hj. assert (j = 2) as -> by lia. exact Hf.
  - destruct (Hlast 1 "Green" eq_refl) as (j & name' & Hj & Hn & Hup & _ & Hf).
    simpl in Hj. assert (j = 1 \/ j = 2) as [-> | ->] by lia; [exact Hf|].
    injection Hn as <-. discriminate.
  - apply Hval. exists 2, "RED". split; [reflexivity|]. split; [reflexivity|].
    exact Hno.
Defined.

(** X8: every code of a char instance is a jsstring of exactly one character,
    the code-set character at a position below the number of input names;
    with the default code-set (absent or empty argument) it is
    [String.fromCharCode(i)] for such a position [i], and the codes are then
    pairwise distinct. *)
Theorem X8_char_codes_are_single_characters :
  forall names customCharSet e,
    createCharEnum names customCharSet = Return e ->
    (forall c, In c (values e) ->
       JS.length c = 1 /\
       exists i, i < length names /\
         i < JS.length (effective_charSet customCharSet) /\
         c = JS.index (effective_charSet customCharSet) i) /\
    (falsy customCharSet = true ->
       NoDup (values e) /\
       forall c, In c (values e) ->
         exists i, i < length names /\ i < 256 /\ c = JS.fromCharCode i).
Proof.
  intros names customCharSet e He.
  apply createCharEnum_Return in He as [Hlen ->].
  assert (Hpos : forall c,
    In c (values (build (assign (JS.index (effective_charSet customCharSet))
                           names 0 []))) ->
    exists i, i < length names /\
      i < JS.length (effective_charSet customCharSet) /\
      c = JS.index (effective_charSet customCharSet) i).
  { intros c Hin. apply values_position in Hin as (j & Hj & ->).
    exists j. repeat split; [exact Hj|lia]. }
  split.
  - intros c Hin. destruct (Hpos c Hin) as (i & Hi & HiC & ->).
    split; [now apply index_length|eauto].
  - intros Hfalsy. rewrite (effective_charSet_falsy _ Hfalsy) in *.
    rewrite default_charSet_length in *. split.
    + apply values_NoDup. intros i j Hi Hj.
      rewrite !default_charSet_index by lia. apply fromCharCode_inj; lia.
    + intros c Hin. destruct (Hpos c Hin) as (i & Hi & HiC & ->).
      exists i. repeat split; [exact Hi|exact HiC|].
      now apply default_charSet_index.
Qed.

Lemma X8_witness :
  (exists e, createCharEnum ["x"; "y"; "X"] (Some "ab!") = Return e /\
     forall c, In c (values e) -> JS.length c = 1) /\
  (exists e, createCharEnum ["x"; "y"; "X"] None = Return e /\
     NoDup (values e)).
Proof.
  split.
  - eexists. split; [reflexivity|]. intros c Hc.
    now apply (X8_char_codes_are_single_characters
                 ["x"; "y"; "X"] (Some "ab!") _ eq_refl).
  - eexists. split; [reflexivity|].
    now apply (X8_char_codes_are_single_characters
                 ["x"; "y"; "X"] None _ eq_refl).
Defined.

(* ===================================================================== *)
(** * The alphanumeric constructor: capacity and codes                    *)
(* ===================================================================== *)

Lemma alphanum_index (i : nat) :
  i < 62 -> is_alphanum (JS.index alphanum_charSet i) = true.
Proof.
  intros Hi.
  assert (Hall : forallb (fun i => is_alphanum (JS.index alphanum_charSet i))
                   (seq 0 62) = true) by (vm_compute; reflexivity).
  rewrite forallb_forall in Hall. apply Hall, in_seq. lia.
Qed.

(** X9: the alphanumeric constructor returns an instance exactly when it is
    given at most 62 names and otherwise throws the capacity error naming
    the limit 62; every code of the instance is a single character among
    0-9, a-z, A-Z. *)
Theorem X9_alphanum_capacity_and_codes :
  forall names,
    ((exists e, createAlphaNumEnum names = Return e) <-> length names <= 62) /\
    (62 < length names ->
       createAlphaNumEnum names
       = Throw (CapacityExceeded "Enum has too many values (max: 62)")) /\
    (forall e, createAlphaNumEnum names = Return e ->
       forall c, In c (values e) -> is_alphanum c = true).
Proof.
  intros names.
  change (createAlphaNumEnum names)
    with (createCharEnum names (Some alphanum_charSet)).
  assert (Heff : effective_charSet (Some alphanum_charSet) = alphanum_charSet)
    by reflexivity.
  assert (Hlen62 : JS.length alphanum_charSet = 62) by reflexivity.
  split; [split|split].
  - intros (e & He). apply createCharEnum_Return in He as [Hlen _].
    now rewrite Heff, Hlen62 in Hlen.
  - intros Hlen. eexists. rewrite createCharEnum_eq. cbv zeta.
    rewrite Heff, Hlen62.
    destruct (Nat.leb_spec (length names) 62); [reflexivity|lia].
  - intros Hlen. rewrite createCharEnum_overflow; rewrite Heff; [|lia].
    unfold char_overflow. now rewrite Hlen62.
  - intros e He c Hin. apply createCharEnum_Return in He as [Hlen ->].
    apply values_position in Hin as (j & Hj & ->).
    rewrite Heff in *. rewrite Hlen62 in Hlen. apply alphanum_index. lia.
Qed.

Lemma X9_witness :
  (exists e, createAlphaNumEnum (numbered_keys 62) = Return e) /\
  createAlphaNumEnum (numbered_keys 63)
  = Throw (CapacityExceeded "Enum has too many values (max: 62)") /\
  (exists e, createAlphaNumEnum ["low"; "high"] = Return e /\
     forall c, In c (values e) -> is_alphanum c = true).
Proof.
  split; [|split].
  - apply (X9_alphanum_capacity_and_codes (numbered_keys 62)).
    vm_compute. lia.
  - apply (X9_alphanum_capacity_and_codes (numbered_keys 63)).
    vm_compute. lia.
  - eexists. split; [reflexivity|].
    now apply (X9_alphanum_capacity_and_codes ["low"; "high"]).
Defined.

(* ===================================================================== *)
(** * Construction does not see the case of the names                     *)
(* ===================================================================== *)

Lemma assign_upper_ext {V : Type} (code : nat -> V) (names1 : list jsstring) :
  forall names2 index acc,
    map JS.toUpperCase names1 = map JS.toUpperCase names2 ->
    assign code names1 index acc = assign code names2 index acc.
Proof.
  induction names1 as [|n1 r1 IH]; intros [|n2 r2] index acc Heq;
    simpl in *; try discriminate; [reflexivity|].
  injection Heq as Hn Hr. rewrite Hn. now apply IH.
Qed.

(** X10: two name lists that agree up to case give the same result in each
    of the three constructors (the same instance or the same error); in
    particular a list and its uppercased form do. *)
Theorem X10_construction_ignores_case :
  forall names1 names2,
    map JS.toUpperCase names1 = map JS.toUpperCase names2 ->
    createByteEnum names1 = createByteEnum names2 /\
    (forall customCharSet,
       createCharEnum names1 customCharSet
       = createCharEnum names2 customCharSet) /\
    createAlphaNumEnum names1 = createAlphaNumEnum names2.
Proof.
  intros names1 names2 Heq.
  assert (Hlen : length names1 = length names2).
  { apply (f_equal (@length jsstring)) in Heq. now rewrite !length_map in Heq. }
  assert (Hchar : forall customCharSet,
    createCharEnum names1 customCharSet = createCharEnum names2 customCharSet).
  { intros customCharSet. rewrite !createCharEnum_eq. cbv zeta.
    now rewrite Hlen, (assign_upper_ext _ names1 names2). }
  split; [|split; [exact Hchar|apply Hchar]].
  rewrite !createByteEnum_eq.
  now rewrite Hlen, (assign_upper_ext _ names1 names2).
Qed.

Lemma X10_witness :
  createByteEnum ["one"; "Two"] = createByteEnum ["ONE"; "tWO"] /\
  createCharEnum ["one"; "Two"] (Some "a") = createCharEnum ["ONE"; "tWO"] (Some "a") /\
  forall names, createByteEnum (map JS.toUpperCase names) = createByteEnum names.
Proof.
  split; [|split].
  - now apply (X10_construction_ignores_case ["one"; "Two"] ["ONE"; "tWO"]).
  - now apply (X10_construction_ignores_case ["one"; "Two"] ["ONE"; "tWO"]).
  - intros names.
    apply (X10_construction_ignores_case (map JS.toUpperCase names) names).
    rewrite map_map. apply map_ext, toUpperCase_idem.
Defined.

(* ===================================================================== *)
(** * Formatted names                                                     *)
(* ===================================================================== *)

Lemma upper_unit_nonempty (u : code_unit) :
  exists v r, JS.upper_unit u = JSCons v r.
Proof.
  destruct u as [a| | |];
    [destruct a as [[] [] [] [] [] [] [] []]|..]; vm_compute; eauto.
Qed.

Lemma toUpperCase_empty (s : jsstring) : JS.toUpperCase s = "" <-> s = "".
Proof.
  destruct s as [|u s]; simpl; split; intros Hs; try discriminate;
    try reflexivity.
  destruct (upper_unit_nonempty u) as (v & r & Hu). rewrite Hu in Hs.
  discriminate.
Qed.

Lemma formatted_name {V : Type} `{Countable V} (code : nat -> V) names c f :
  let e := build (assign code names 0 []) in
  (In c (values e) ->
     exists name, In name names /\
       forward e (JS.toUpperCase name) = Some c /\
       getKeyByValue e c = Some (JS.toUpperCase name) /\
       getFormattedName e c f
       = if JS.eqb name "" then "" else f (JS.toUpperCase name)) /\
  (~ In c (values e) -> getFormattedName e c f = "") /\
  getFormattedName e c (fun key => key) = default "" (getKeyByValue e c) /\
  getDisplayName e c = getFormattedName e c spec_display_name.
Proof.
  simpl. split; [|split; [|split]].
  - intros Hin. destruct (known_code_display code names c Hin)
      as (name & k & Hname & -> & Hf & Hk & _).
    exists name. repeat split; [exact Hname|exact Hf|exact Hk|].
    unfold getFormattedName. rewrite Hk.
    destruct (jsstring_eqb_spec name "") as [->|Hne]; [reflexivity|].
    destruct (jsstring_eqb_spec (JS.toUpperCase name) "") as [He|_];
      [|reflexivity].
    apply (proj1 (toUpperCase_empty name)) in He. contradiction.
  - intros Hout. apply unknown_code.
    destruct (isValue _ c) eqn:Hv; [|reflexivity].
    now apply isValue_build in Hv.
  - unfold getFormattedName.
    destruct (getKeyByValue _ c) as [k|]; [|reflexivity]. simpl.
    now destruct (jsstring_eqb_spec k "") as [->|_].
  - unfold getDisplayName, getFormattedName.
    destruct (getKeyByValue _ c) as [k|]; [|reflexivity].
    destruct (JS.eqb k ""); [reflexivity|apply title_case_spec].
Qed.

(** X11: on every constructed instance [getFormattedName(code, formatter)]
    is the empty jsstring for a code that is not in [values()]; for a code of
    the instance it is the formatter applied to the uppercased name that
    [getKeyByValue] resolves the code to, except that for the empty name the
    formatter is not applied and the result is the empty jsstring.  With the
    identity formatter it returns the key (or the empty jsstring), and
    [getDisplayName] is [getFormattedName] with the display rule. *)
Theorem X11_formatted_name :
  (forall names e c formatter, createByteEnum names = Return e ->
     (In c (values e) ->
        exists name, In name names /\
          forward e (JS.toUpperCase name) = Some c /\
          getKeyByValue e c = Some (JS.toUpperCase name) /\
          getFormattedName e c formatter
          = if JS.eqb name "" then ""
            else formatter (JS.toUpperCase name)) /\
     (~ In c (values e) -> getFormattedName e c formatter = "") /\
     getFormattedName e c (fun key => key) = default "" (getKeyByValue e c) /\
     getDisplayName e c = getFormattedName e c spec_display_name) /\
  (forall names customCharSet e c formatter,
     createCharEnum names customCharSet = Return e ->
     (In c (values e) ->
        exists name, In name names /\
          forward e (JS.toUpperCase name) = Some c /\
          getKeyByValue e c = Some (JS.toUpperCase name) /\
          getFormattedName e c formatter
          = if JS.eqb name "" then ""
            else formatter (JS.toUpperCase name)) /\
     (~ In c (values e) -> getFormattedName e c formatter = "") /\
     getFormattedName e c (fun key => key) = default "" (getKeyByValue e c) /\
     getDisplayName e c = getFormattedName e c spec_display_name).
Proof.
  split.
  - intros names e c formatter He.
    apply createByteEnum_Return in He as [_ ->]. apply formatted_name.
  - intros names customCharSet e c formatter He.
    apply createCharEnum_Return in He as [_ ->]. apply formatted_name.
Qed.

Lemma X11_witness :
  (exists e, createByteEnum ["one"; ""] = Return e /\
     getFormattedName e 0%Z (fun key => "Custom: " +:+ key) = "Custom: ONE" /\
     getKeyByValue e 1%Z = Some "" /\
     getFormattedName e 1%Z (fun key => "Custom: " +:+ key) = "" /\
     getFormattedName e 99%Z (fun key => "Custom: " +:+ key) = "") /\
  (exists e, createCharEnum ["red"] (Some "R") = Return e /\
     getFormattedName e "X" (fun key => "Color: " +:+ key) = "").
Proof.
  destruct X11_formatted_name as [Hbyte Hchar]. split.
  - eexists. split; [reflexivity|].
    set (f := fun key => "Custom: " +:+ key).
    destruct (Hbyte ["one"; ""] _ 0%Z f eq_refl) as (H0 & _).
    destruct (Hbyte ["one"; ""] _ 1%Z f eq_refl) as (H1 & _).
    destruct (Hbyte ["one"; ""] _ 99%Z f eq_refl) as (_ & H99 & _).
    split; [|split; [reflexivity|split]].
    + destruct H0 as (name & Hin & _ & Hk & ->); [vm_compute; tauto|].
      vm_compute in Hk. simpl in Hin.
      destruct Hin as [<-|[<-|[]]]; [reflexivity|discriminate].
    + destruct H1 as (name & Hin & _ & Hk & ->); [vm_compute; tauto|].
      vm_compute in Hk. simpl in Hin.
      destruct Hin as [<-|[<-|[]]]; [discriminate|reflexivity].
    + apply H99. vm_compute. intuition discriminate.
  - eexists. split; [reflexivity|].
    destruct (Hchar ["red"] (Some "R") _ "X"
                (fun key => "Color: " +:+ key) eq_refl) as (_ & Hout & _).
    apply Hout. vm_compute. intuition discriminate.
Defined.

(* ===================================================================== *)
(** * The empty name list                                                 *)
(* ===================================================================== *)

Lemma empty_instance {V : Type} `{Countable V} :
  let e : Instance V := build [] in
  keys e = [] /\ values e = [] /\
  (forall c, isValue e c = false /\ getKeyByValue e c = None /\
     getDisplayName e c = "" /\
     forall formatter, getFormattedName e c formatter = "") /\
  (forall s, isKey e s = false).
Proof.
  simpl. split; [reflexivity|]. split; [reflexivity|]. split.
  - intros c. assert (Hv : isValue (build ([] : JS.object V)) c = false).
    { destruct (isValue _ c) eqn:Hv; [|reflexivity].
      apply isValue_build in Hv. destruct Hv. }
    split; [exact Hv|]. destruct (unknown_code _ c Hv) as (Hk & Hd & Hf).
    auto.
  - intros s. rewrite isKey_forward. reflexivity.
Qed.

(** X12: every constructor accepts the empty name list, whatever the
    code-set: the instance has no key and no value, [isValue] and [isKey]
    are false everywhere, [getKeyByValue] finds nothing and the two name
    formatters return the empty jsstring. *)
Theorem X12_empty_name_list :
  (exists e, createByteEnum [] = Return e /\
     keys e = [] /\ values e = [] /\
     (forall c, isValue e c = false /\ getKeyByValue e c = None /\
        getDisplayName e c = "" /\
        forall formatter, getFormattedName e c formatter = "") /\
     (forall s, isKey e s = false)) /\
  (forall customCharSet,
     exists e, createCharEnum [] customCharSet = Return e /\
       keys e = [] /\ values e = [] /\
       (forall c, isValue e c = false /\ getKeyByValue e c = None /\
          getDisplayName e c = "" /\
          forall formatter, getFormattedName e c formatter = "") /\
       (forall s, isKey e s = false)) /\
  createAlphaNumEnum [] = createCharEnum [] None.
Proof.
  split; [|split].
  - eexists. split; [reflexivity|]. apply empty_instance.
  - intros customCharSet. eexists. split; [reflexivity|]. apply empty_instance.
  - reflexivity.
Qed.

(* ===================================================================== *)
(** * The shape of a display name                                         *)
(* ===================================================================== *)

Section DisplayShape.

Ltac by_units u :=
  destruct u as [a| | |];
  [destruct a as [[] [] [] [] [] [] [] []]|..]; vm_compute; reflexivity.

























End DisplayShape.





(** Without the hypothesis of X14 the key is not recovered: a space in the
    key comes back as an underscore. *)
Example display_name_space_not_recovered :
  exists e, createByteEnum ["a b"] = Return e /\
    getKeyByValue e 0%Z = Some "A B" /\
    replace_char (U8 " ") (U8 "_") (JS.toUpperCase (getDisplayName e 0%Z))
    = "A_B".
Proof. eexists. split; [reflexivity|]. vm_compute. auto. Qed.

(* ===================================================================== *)
(** * The two constructors build the same mapping, up to the codes        *)
(* ===================================================================== *)

Section Recoding.
Context {A B : Type}.
Variable g : A -> B.

Lemma put_recode k v (o : JS.object A) :
  JS.put k (g v) (map (recode g) o) = map (recode g) (JS.put k v o).
Proof.
  induction o as [|[k0 v0] r IH]; simpl; [reflexivity|].
  destruct (JS.eqb k k0); simpl; [reflexivity|]. now rewrite IH.
Qed.

Lemma assign_recode (code : nat -> A) names : forall index (acc : JS.object A),
  assign (fun i => g (code i)) names index (map (recode g) acc)
  = map (recode g) (assign code names index acc).
Proof.
  induction names as [|name rest IH]; intros index acc; simpl; [reflexivity|].
  rewrite <- IH. f_equal. unfold JS.set.
  destruct (JS.eqb _ "__proto__"); [reflexivity|apply put_recode].
Qed.

Lemma insert_sorted_recode n e (l : list (N * (jsstring * A))) :
  JS.insert_sorted n (recode g e) (map (fun p => (fst p, recode g (snd p))) l)
  = map (fun p => (fst p, recode g (snd p))) (JS.insert_sorted n e l).
Proof.
  induction l as [|[m e'] r IH]; simpl; [reflexivity|].
  destruct (n <=? m)%N; simpl; [reflexivity|]. now rewrite IH.
Qed.

Lemma index_entries_recode (o : JS.object A) :
  JS.index_entries (map (recode g) o)
  = map (fun p => (fst p, recode g (snd p))) (JS.index_entries o).
Proof.
  induction o as [|[k v] r IH]; simpl; [reflexivity|].
  destruct (JS.array_index k); rewrite IH; [|reflexivity].
  apply (insert_sorted_recode _ (k, v)).
Qed.

(** The enumeration order depends on the keys only. *)
Lemma entries_recode (o : JS.object A) :
  JS.entries (map (recode g) o) = map (recode g) (JS.entries o).
Proof.
  unfold JS.entries, JS.named_entries.
  rewrite index_entries_recode, !map_app, !map_map. f_equal.
  induction o as [|[k v] r IH]; simpl; [reflexivity|].
  destruct (JS.is_array_index k); simpl; now rewrite IH.
Qed.

Lemma get_recode k (o : JS.object A) :
  JS.get k (map (recode g) o) = g <$> JS.get k o.
Proof.
  induction o as [|[k0 v0] r IH]; simpl; [reflexivity|].
  destruct (JS.eqb k k0); [reflexivity|exact IH].
Qed.

End Recoding.

Lemma assign_ext {V : Type} (code code' : nat -> V) names :
  (forall i, code i = code' i) ->
  forall index acc, assign code names index acc = assign code' names index acc.
Proof.
  intros Hext. induction names as [|name rest IH]; intros index acc; simpl;
    [reflexivity|].
  now rewrite Hext, IH.
Qed.

Lemma build_recode {A B : Type} `{Countable A} `{Countable B}
    (g : A -> B) (o : JS.object A) :
  keys (build (map (recode g) o)) = keys (build o) /\
  values (build (map (recode g) o)) = map g (values (build o)) /\
  (forall k, forward (build (map (recode g) o)) k = g <$> forward (build o) k) /\
  (forall s, isKey (build (map (recode g) o)) s = isKey (build o) s).
Proof.
  rewrite !keys_build, !values_build, entries_recode, !map_map.
  split; [reflexivity|]. split; [reflexivity|]. split.
  - intros k. rewrite !forward_build. apply get_recode.
  - intros s. rewrite !isKey_forward, !enumObject_build.
    unfold JS.hasOwnProperty. rewrite get_recode.
    now destruct (JS.get (JS.toUpperCase s) o).
Qed.

(** X15: for one name list the byte and the char constructor build the same
    mapping up to the codes: [keys()] and [isKey] agree, and the char
    instance has the code-set character at position [i] wherever the byte
    instance has the integer [i], in [values()] and in the forward
    mapping. *)
Theorem X15_char_instance_recodes_byte_instance :
  forall names customCharSet eb ec,
    createByteEnum names = Return eb ->
    createCharEnum names customCharSet = Return ec ->
    keys ec = keys eb /\
    values ec = map (fun i => JS.index (effective_charSet customCharSet)
                                (Z.to_nat i)) (values eb) /\
    (forall k, forward ec k
               = (fun i => JS.index (effective_charSet customCharSet)
                             (Z.to_nat i)) <$> forward eb k) /\
    (forall s, isKey ec s = isKey eb s).
Proof.
  intros names customCharSet eb ec Hb Hc.
  apply createByteEnum_Return in Hb as [_ ->].
  apply createCharEnum_Return in Hc as [_ ->].
  set (g := fun i => JS.index (effective_charSet customCharSet) (Z.to_nat i)).
  assert (Ho : assign (JS.index (effective_charSet customCharSet)) names 0 []
               = map (recode g) (assign Z.of_nat names 0 [])).
  { rewrite <- (assign_recode g Z.of_nat names 0 []). simpl.
    apply assign_ext. intros i. unfold g. now rewrite Nat2Z.id. }
  rewrite Ho. apply build_recode.
Qed.

Lemma X15_witness :
  exists eb ec,
    createByteEnum ["b"; "1"; "B"; "a"] = Return eb /\
    createCharEnum ["b"; "1"; "B"; "a"] (Some "wxyz") = Return ec /\
    keys ec = keys eb /\ values eb = [1; 2; 3]%Z /\
    values ec = ["x"; "y"; "z"].
Proof.
  eexists. eexists. split; [reflexivity|]. split; [reflexivity|].
  destruct (X15_char_instance_recodes_byte_instance
              ["b"; "1"; "B"; "a"] (Some "wxyz") _ _ eq_refl eq_refl)
    as (Hk & Hv & _).
  split; [exact Hk|]. split; [reflexivity|exact Hv].
Defined.

(* ===================================================================== *)
(** * Code-sets without repeated characters                               *)
(* ===================================================================== *)

Lemma get_lookup (s : jsstring) : forall i,
  JS.unit_at i s = units s !! i.
Proof.
  induction s as [|a s IH]; intros [|i]; simpl; try reflexivity. apply IH.
Qed.

Lemma index_inj (s : jsstring) i j :
  NoDup (units s) ->
  i < JS.length s -> j < JS.length s ->
  JS.index s i = JS.index s j -> i = j.
Proof.
  intros Hnd Hi Hj. unfold JS.index. rewrite !get_lookup.
  assert (Hlen : length (units s) = JS.length s).
  { clear. induction s as [|a s IH]; simpl; [reflexivity|now rewrite IH]. }
  destruct (lookup_lt_is_Some_2 (units s) i) as [a Ha]; [lia|].
  destruct (lookup_lt_is_Some_2 (units s) j) as [b Hb]; [lia|].
  rewrite Ha, Hb. intros [= ->]. eapply NoDup_lookup; eassumption.
Qed.

Lemma inverse_mappings {V : Type} `{Countable V} (code : nat -> V) names :
  (forall i j, i < length names -> j < length names ->
     code i = code j -> i = j) ->
  let e := build (assign code names 0 []) in
  (forall k c, forward e k = Some c <-> getKeyByValue e c = Some k) /\
  NoDup (values e) /\
  length (values e) = length (remove_dups (map JS.toUpperCase names)).
Proof.
  intros Hinj. simpl. split; [|split].
  - intros k c. split.
    + apply getKeyByValue_forward; [apply assign_nil_NoDup|].
      now apply assign_injective.
    + intros Hk. rewrite getKeyByValue_build in Hk.
      apply last_key_In in Hk. apply (proj1 (entries_In _ _)) in Hk.
      rewrite forward_build. apply In_get; [apply assign_nil_NoDup|exact Hk].
  - now apply values_NoDup.
  - rewrite <- (keys_values_length _ _ eq_refl). apply keys_length.
Qed.

(** X16: when no two positions in use carry the same code (always for the
    byte constructor; for the char constructor when the characters of the
    code-set in use are pairwise distinct, as those of the default and of
    the alphanumeric code-set are), the reverse index is the inverse of the
    forward mapping: a name is bound to a code exactly when [getKeyByValue]
    of the code is the name; [values()] has no repeated entry and as many
    entries as there are distinct uppercased names. *)
Theorem X16_reverse_index_is_inverse :
  (forall names e, createByteEnum names = Return e ->
     (forall k c, forward e k = Some c <-> getKeyByValue e c = Some k) /\
     NoDup (values e) /\
     length (values e) = length (remove_dups (map JS.toUpperCase names))) /\
  (forall names customCharSet e,
     NoDup (units (effective_charSet customCharSet)) ->
     createCharEnum names customCharSet = Return e ->
     (forall k c, forward e k = Some c <-> getKeyByValue e c = Some k) /\
     NoDup (values e) /\
     length (values e) = length (remove_dups (map JS.toUpperCase names))) /\
  NoDup (units default_charSet) /\
  NoDup (units alphanum_charSet).
Proof.
  split; [|split; [|split]].
  - intros names e He. apply createByteEnum_Return in He as [_ ->].
    apply inverse_mappings. intros i j _ _. apply Nat2Z.inj.
  - intros names customCharSet e Hnd He.
    apply createCharEnum_Return in He as [Hlen ->].
    apply inverse_mappings. intros i j Hi Hj.
    apply index_inj; [exact Hnd|lia|lia].
  - apply (bool_decide_unpack _). vm_compute. exact I.
  - apply (bool_decide_unpack _). vm_compute. exact I.
Qed.

Lemma X16_witness :
  (exists e, createByteEnum ["a"; "b"; "A"] = Return e /\
     NoDup (values e) /\ length (values e) = 2 /\
     (forward e "A" = Some 2%Z <-> getKeyByValue e 2%Z = Some "A")) /\
  (exists e, createAlphaNumEnum ["a"; "b"; "A"] = Return e /\
     NoDup (values e) /\ length (values e) = 2 /\
     (forward e "A" = Some "2" <-> getKeyByValue e "2" = Some "A")).
Proof.
  destruct X16_reverse_index_is_inverse as (Hbyte & Hchar & _ & Halnum).
  split.
  - eexists. split; [reflexivity|].
    destruct (Hbyte ["a"; "b"; "A"] _ eq_refl) as (Hiff & Hnd & Hlen).
    split; [exact Hnd|]. split; [exact Hlen|apply Hiff].
  - eexists. split; [reflexivity|].
    destruct (Hchar ["a"; "b"; "A"] (Some alphanum_charSet) _ Halnum eq_refl)
      as (Hiff & Hnd & Hlen).
    split; [exact Hnd|]. split; [exact Hlen|apply Hiff].
Defined.
